(** * upload_on_youtube.py: scheduling, tag budget, resumable upload, archiving

    A shallow embedding of [src/upload_on_youtube.py] and the properties of
    its planner, tag trimmer, upload session and batch loop. *)

From Stdlib Require Import ZArith QArith String Ascii List Lia Lqa.
From stdpp Require Import base option list strings pretty gmap.

Local Close Scope Q_scope.
Local Open Scope Z_scope.

(** ** Exceptions and results of calls *)

(** The exception classes that can reach the code under study.
    [SystemExit] and [KeyboardInterrupt] derive from [BaseException] only;
    every other class derives from [Exception]. *)
Inductive exn : Type :=
  | SystemExit (msg : string)
  | KeyboardInterrupt
  | HttpError (msg : string)
  | FileNotFoundError (msg : string)
  | ValueError (msg : string)
  | OverflowError
  | EOFError
  | OSError (msg : string).

Definition is_Exception (e : exn) : bool :=
  match e with
  | SystemExit _ | KeyboardInterrupt => false
  | _ => true
  end.

Definition is_HttpError (e : exn) : bool :=
  match e with
  | HttpError _ => true
  | _ => false
  end.

(** A call returns a value, raises, or has not returned: [Hang] stands for a
    blocking call (reading the console, waiting for the network) for which the
    environment supplied no answer. *)
Inductive outcome (A : Type) : Type :=
  | Ok (a : A)
  | Raise (e : exn)
  | Hang.
Arguments Ok {A} a.
Arguments Raise {A} e.
Arguments Hang {A}.

#[global] Instance outcome_ret : MRet outcome := fun A a => Ok a.
#[global] Instance outcome_bind : MBind outcome := fun A B f m =>
  match m with
  | Ok a => f a
  | Raise e => Raise e
  | Hang => Hang
  end.

(** ** CONFIG *)

Definition CATEGORY_ID : string := "28".
Definition UPLOAD_HOUR : Z := 10.
Definition MIN_MARGIN_MIN : Z := 20.
Definition DONE_DIR : string := "0.DONE".
Definition PROGRESS_STEP : Q := (5 # 100)%Q.

(** ** datetime

    A [datetime] is kept as the count of microseconds of its wall-clock
    fields since the instant whose proleptic Gregorian ordinal is 0 (that is
    [toordinal() * 86400e6 + time of day], the quantity datetime arithmetic
    works on), together with the UTC offset of its [tzinfo]. pytz's zones
    hand out fixed-offset [tzinfo] instances, so the offset is a property of
    the value and arithmetic keeps it. A [timedelta] is a count of
    microseconds. *)

Definition US_PER_SECOND : Z := 1000000.
Definition US_PER_MINUTE : Z := 60 * US_PER_SECOND.
Definition US_PER_HOUR : Z := 60 * US_PER_MINUTE.
Definition US_PER_DAY : Z := 24 * US_PER_HOUR.
Definition MAXORDINAL : Z := 3652059.

Definition timedelta (days minutes : Z) : Z :=
  days * US_PER_DAY + minutes * US_PER_MINUTE.

Record datetime : Type := mk_datetime {
  wall_us : Z;
  utcoffset_us : Z
}.

(** The instant on the UTC time line. *)
Definition instant (d : datetime) : Z := wall_us d - utcoffset_us d.

(** [date.MINYEAR..MAXYEAR]: ordinals 1 to [MAXORDINAL]. *)
Definition in_range (w : Z) : bool :=
  (US_PER_DAY <=? w) && (w <? (MAXORDINAL + 1) * US_PER_DAY).

(** [d + td]: wall-clock arithmetic, same [tzinfo]; [OverflowError] outside
    the supported years. *)
Definition dt_add (d : datetime) (td : Z) : outcome datetime :=
  let w := wall_us d + td in
  if in_range w then Ok (mk_datetime w (utcoffset_us d)) else Raise OverflowError.

(** [a >= b] on aware values compares instants. *)
Definition dt_ge (a b : datetime) : bool := instant b <=? instant a.

(** [a - b] on aware values is the difference of instants. *)
Definition dt_sub (a b : datetime) : Z := instant a - instant b.

(** [w.replace(hour=h, minute=0, second=0, microsecond=0)] on wall fields. *)
Definition replace_hms (w h : Z) : Z :=
  w / US_PER_DAY * US_PER_DAY + h * US_PER_HOUR.

(** [w.replace(hour=h)] on wall fields: minutes and below are kept. *)
Definition replace_hour (w h : Z) : Z :=
  w - (w mod US_PER_DAY / US_PER_HOUR) * US_PER_HOUR + h * US_PER_HOUR.

(** *** The calendar behind the fields (proleptic Gregorian) *)

Definition is_leap (year : Z) : bool :=
  (year mod 4 =? 0) && (negb (year mod 100 =? 0) || (year mod 400 =? 0)).

Definition days_before_year (year : Z) : Z :=
  let y := year - 1 in y * 365 + y / 4 - y / 100 + y / 400.

Definition DAYS_IN_MONTH (month : Z) : Z :=
  match month with
  | 1 => 31 | 2 => 28 | 3 => 31 | 4 => 30 | 5 => 31 | 6 => 30
  | 7 => 31 | 8 => 31 | 9 => 30 | 10 => 31 | 11 => 30 | 12 => 31
  | _ => -1
  end.

Definition DAYS_BEFORE_MONTH (month : Z) : Z :=
  match month with
  | 1 => 0 | 2 => 31 | 3 => 59 | 4 => 90 | 5 => 120 | 6 => 151
  | 7 => 181 | 8 => 212 | 9 => 243 | 10 => 273 | 11 => 304 | 12 => 334
  | _ => -1
  end.

Definition days_before_month (leap : bool) (month : Z) : Z :=
  DAYS_BEFORE_MONTH month + (if (2 <? month) && leap then 1 else 0).

Definition ymd2ord (year month day : Z) : Z :=
  days_before_year year + days_before_month (is_leap year) month + day.

Definition DI400Y : Z := 146097.
Definition DI100Y : Z := 36524.
Definition DI4Y : Z := 1461.

Definition ord2ymd (ordinal : Z) : Z * Z * Z :=
  let n := ordinal - 1 in
  let n400 := n / DI400Y in
  let n := n mod DI400Y in
  let year := n400 * 400 + 1 in
  let n100 := n / DI100Y in
  let n := n mod DI100Y in
  let n4 := n / DI4Y in
  let n := n mod DI4Y in
  let n1 := n / 365 in
  let n := n mod 365 in
  let year := year + n100 * 100 + n4 * 4 + n1 in
  if (n1 =? 4) || (n100 =? 4) then (year - 1, 12, 31)
  else
    let leapyear := (n1 =? 3) && (negb (n4 =? 24) || (n100 =? 3)) in
    let month := Z.shiftr (n + 50) 5 in
    let preceding := days_before_month leapyear month in
    if n <? preceding then
      let month := month - 1 in
      let preceding :=
        preceding - (DAYS_IN_MONTH month + (if (month =? 2) && leapyear then 1 else 0)) in
      (year, month, n - preceding + 1)
    else (year, month, n - preceding + 1).

(** [datetime(year, month, day, hour, minute, tzinfo=<offset>)]. *)
Definition datetime_of (year month day hour minute : Z) (offset_us : Z) : datetime :=
  mk_datetime (ymd2ord year month day * US_PER_DAY
               + hour * US_PER_HOUR + minute * US_PER_MINUTE) offset_us.

(** ** next_valid (lines 86-87) *)

Definition next_valid (dt now : datetime) (margin : Z) : outcome datetime :=
  limit ← dt_add now margin;
  if dt_ge dt limit then Ok dt else dt_add now margin.

(** ** planner (lines 90-113)

    [datetime.now(paris)] is the argument [now]; the console is the stripped
    answer to the mode prompt, [choice], and the stripped answers to the date
    prompts, [answers], consumed in order. *)

Section Planner.

(** [datetime.strptime(ds, "%Y-%m-%d")]: the wall value of the parsed date
    at 00:00, or [ValueError]. *)
Variable strptime_ymd : string → outcome Z.

(** The UTC offset [paris.localize] gives to a naive wall value (pytz's
    Europe/Paris table). *)
Variable paris_utcoffset : Z → Z.

Definition paris_localize (w : Z) : datetime :=
  mk_datetime w (paris_utcoffset w).

(** [for i in range(n): dates.append(f(i))] *)
Fixpoint for_append {A : Type} (f : nat → outcome A) (range : list nat)
    (dates : list A) : outcome (list A) :=
  match range with
  | [] => Ok dates
  | i :: range' => d ← f i; for_append f range' (dates ++ [d])
  end.

(** The loop of the manual mode: one [input()] per item, which raises
    [EOFError] once the console has no line left. *)
Fixpoint manual_loop (now : datetime) (margin : Z) (range : list nat)
    (answers : list string) (dates : list (option datetime))
    : outcome (list (option datetime)) :=
  match range with
  | [] => Ok dates
  | k :: range' =>
      match answers with
      | [] => Raise EOFError
      | ds :: answers' =>
          w ← strptime_ymd ds;
          let dt := paris_localize (replace_hour w UPLOAD_HOUR) in
          d ← next_valid dt now margin;
          manual_loop now margin range' answers' (dates ++ [Some d])
      end
  end.

Definition planner (n : nat) (now : datetime) (choice : string)
    (answers : list string) : outcome (list (option datetime)) :=
  let base_today :=
    mk_datetime (replace_hms (wall_us now) UPLOAD_HOUR) (utcoffset_us now) in
  let margin := timedelta 0 MIN_MARGIN_MIN in
  if negb (bool_decide (choice ∈ ["1"; "2"; "3"; "4"]))
  then Raise (SystemExit "Choix invalide")
  else if String.eqb choice "3" then Ok (replicate n None)
  else if String.eqb choice "1" then
    for_append (fun i =>
        cand ← dt_add base_today (timedelta (Z.of_nat i) 0);
        d ← next_valid cand now margin;
        Ok (Some d))
      (seq 0 n) []
  else if String.eqb choice "2" then
    tomorrow ← dt_add base_today (timedelta 1 0);
    start ← next_valid tomorrow now margin;
    for_append (fun i =>
        d ← dt_add start (timedelta (3 * Z.of_nat i) 0);
        Ok (Some d))
      (seq 0 n) []
  else
    manual_loop now margin (seq 0 n) answers [].

End Planner.

(** ** trim_tags (lines 116-124) *)

Fixpoint trim_loop (tags : list string) (total : Z) (out : list string)
    : list string :=
  match tags with
  | [] => out
  | t :: tags' =>
      let l := Z.of_nat (String.length t) in
      if 500 <? total + l + 1 then out
      else trim_loop tags' (total + l + 1) (out ++ [t])
  end.

Definition trim_tags (tags : list string) : list string :=
  trim_loop tags 0 [].

(** ** iso (lines 127-128) *)

(** [dt.astimezone(pytz.UTC)]: the same instant with offset 0. *)
Definition astimezone_utc (d : datetime) : outcome datetime :=
  let w := wall_us d - utcoffset_us d in
  if in_range w then Ok (mk_datetime w 0) else Raise OverflowError.

Definition digit (d : Z) : ascii := ascii_of_nat (Z.to_nat (48 + d)).

(** [%m], [%d], [%H], [%M], [%S]: two digits, zero padded. *)
Definition pad2 (n : Z) : string :=
  String (digit (n / 10 mod 10)) (String (digit (n mod 10)) EmptyString).

(** [%Y]: four digits, zero padded (the documented rendering; C libraries
    differ on years before 1000 only). *)
Definition pad4 (n : Z) : string :=
  String (digit (n / 1000 mod 10)) (String (digit (n / 100 mod 10)) (pad2 n)).

(** [d.strftime("%Y-%m-%dT%H:%M:%SZ")] *)
Definition strftime_iso (d : datetime) : string :=
  let '(year, month, day) := ord2ymd (wall_us d / US_PER_DAY) in
  let tod := wall_us d mod US_PER_DAY in
  pad4 year +:+ "-" +:+ pad2 month +:+ "-" +:+ pad2 day +:+ "T"
    +:+ pad2 (tod / US_PER_HOUR) +:+ ":"
    +:+ pad2 (tod / US_PER_MINUTE mod 60) +:+ ":"
    +:+ pad2 (tod / US_PER_SECOND mod 60) +:+ "Z".

Definition iso (dt : option datetime) : outcome (option string) :=
  match dt with
  | Some d => u ← astimezone_utc d; Ok (Some (strftime_iso u))
  | None => Ok None
  end.

(** *** Reading the wire format back

    A reader for [YYYY-MM-DDTHH:MM:SSZ], used to state what the rendered
    text denotes: the count of whole seconds since ordinal 0 on the UTC
    time line. It is not part of the program. *)

Definition digit_val (c : ascii) : option Z :=
  let n := Z.of_nat (nat_of_ascii c) in
  if (48 <=? n) && (n <=? 57) then Some (n - 48) else None.

Definition read_digit (s : string) : option (Z * string) :=
  match s with
  | String c s' => v ← digit_val c; Some (v, s')
  | EmptyString => None
  end.

Fixpoint read_digits (k : nat) (acc : Z) (s : string) : option (Z * string) :=
  match k with
  | O => Some (acc, s)
  | S k' => '(v, s') ← read_digit s; read_digits k' (10 * acc + v) s'
  end.

Definition expect (c : ascii) (s : string) : option string :=
  match s with
  | String c' s' => if Ascii.eqb c c' then Some s' else None
  | EmptyString => None
  end.

Definition read_iso_seconds (s : string) : option Z :=
  '(year, s) ← read_digits 4 0 s;
  s ← expect "-" s;
  '(month, s) ← read_digits 2 0 s;
  s ← expect "-" s;
  '(day, s) ← read_digits 2 0 s;
  s ← expect "T" s;
  '(hour, s) ← read_digits 2 0 s;
  s ← expect ":" s;
  '(minute, s) ← read_digits 2 0 s;
  s ← expect ":" s;
  '(second, s) ← read_digits 2 0 s;
  s ← expect "Z" s;
  match s with
  | EmptyString =>
      Some (ymd2ord year month day * 86400 + hour * 3600 + minute * 60 + second)
  | _ => None
  end.

(** ** The request body (lines 137-151) *)

(** [metadata.json] once parsed: each key may be absent ([meta.get]). *)
Record metadata : Type := mk_metadata {
  meta_title : option string;
  meta_description : option string;
  meta_tags : option (list string)
}.

Record video_file : Type := mk_video {
  video_path : string;
  video_stem : string
}.

Inductive json : Type :=
  | JNull
  | JBool (b : bool)
  | JStr (s : string)
  | JStrs (l : list string).

Record request_body : Type := mk_body {
  snippet : gmap string json;
  status : gmap string json
}.

Definition json_of_iso (s : option string) : json :=
  match s with
  | Some s => JStr s
  | None => JNull
  end.

Definition build_body (video : video_file) (meta : metadata)
    (when : option datetime) : outcome request_body :=
  let body :=
    {| snippet :=
         <["defaultLanguage" := JStr "fr"]>
         (<["categoryId" := JStr CATEGORY_ID]>
         (<["tags" := JStrs (trim_tags (default [] (meta_tags meta)))]>
         (<["description" := JStr (default EmptyString (meta_description meta))]>
         (<["title" := JStr (default (video_stem video) (meta_title meta))]> ∅))));
       status :=
         <["selfDeclaredMadeForKids" := JBool false]>
         (<["privacyStatus" :=
              JStr (if when is None then "public" else "private")]> ∅) |} in
  match when with
  | None => Ok body
  | Some _ =>
      s ← iso when;
      Ok {| snippet := snippet body;
            status := <["publishAt" := json_of_iso s]> (status body) |}
  end.

(** ** The world seen by upload and main

    What the program does to its surroundings is recorded in order in
    [events]; [held] lists the file handles the program has opened and not
    closed. *)

(** The [Video] resource the API returns once the transfer is complete. *)
Record response : Type := mk_response { resp_id : string }.

(** One call of [request.next_chunk()]: it returns [(status, resp)], where
    [status] is [None] or carries [status.progress()], and [resp] is [None]
    until the transfer is complete; or it raises. *)
Inductive chunk_result : Type :=
  | Returns (status : option Q) (resp : option response)
  | Raises (e : exn).

Inductive event : Type :=
  | Ev_find_video_meta (folder : string)
  | Ev_log_upload (folder : string) (when : option datetime)
  | Ev_MediaFileUpload (path : string)
  | Ev_insert (body : request_body)
  | Ev_next_chunk
  | Ev_progress_bar (p : Q)
  | Ev_log_api_error (e : exn)
  | Ev_upload_done (video_id : string)
  | Ev_move (folder : string)
  | Ev_log_archived (folder : string)
  | Ev_log_failure (folder : string) (e : exn).

Record world : Type := mk_world {
  events : list event;
  held : list string
}.

Definition M (A : Type) : Type := world → outcome A * world.

#[global] Instance M_ret : MRet M := fun A a w => (Ok a, w).
#[global] Instance M_bind : MBind M := fun A B f m w =>
  match m w with
  | (Ok a, w') => f a w'
  | (Raise e, w') => (Raise e, w')
  | (Hang, w') => (Hang, w')
  end.

Definition emit (ev : event) : M unit :=
  fun w => (Ok tt, mk_world (events w ++ [ev]) (held w)).

(** [MediaFileUpload(path, resumable=True)] opens the file and keeps the
    handle. *)
Definition media_file_upload (path : string) : M unit :=
  fun w => (Ok tt, mk_world (events w ++ [Ev_MediaFileUpload path])
                            (held w ++ [path])).

Definition lift {A : Type} (r : outcome A) : M A := fun w => (r, w).

(** [try: body  except <class> as e: handler(e)] *)
Definition try_except {A : Type} (body : M A) (class : exn → bool)
    (handler : exn → M A) : M A :=
  fun w =>
    match body w with
    | (Raise e, w') => if class e then handler e w' else (Raise e, w')
    | r => r
    end.

(** ** upload (lines 136-166) *)

(** The [while resp is None] loop; [script] holds the results of the calls
    of [request.next_chunk()] in order. With no result left the call made is
    still pending. *)
Fixpoint chunk_loop (script : list chunk_result) (last_shown : Q) : M response :=
  match script with
  | [] => emit Ev_next_chunk ;; lift Hang
  | Raises e :: _ => emit Ev_next_chunk ;; lift (Raise e)
  | Returns status resp :: script' =>
      emit Ev_next_chunk ;;
      last_shown ←
        match status with
        | Some p =>
            if Qle_bool PROGRESS_STEP (p - last_shown)
            then emit (Ev_progress_bar p) ;; mret p
            else mret last_shown
        | None => mret last_shown
        end;
      match resp with
      | Some r => mret r
      | None => chunk_loop script' last_shown
      end
  end.

(** The [except HttpError] handler of [upload]. *)
Definition log_and_reraise (e : exn) : M response :=
  emit (Ev_log_api_error e) ;; lift (Raise e).

Definition upload (video : video_file) (meta : metadata)
    (when : option datetime) (script : list chunk_result) : M unit :=
  body ← lift (build_body video meta when);
  media_file_upload (video_path video) ;;
  emit (Ev_insert body) ;;
  resp ← try_except (chunk_loop script 0%Q) is_HttpError log_and_reraise;
  emit (Ev_upload_done (resp_id resp)).

(** ** find_video_meta (lines 57-64) and main (lines 170-187) *)

(** One selected folder and what its surroundings answer: the entries with
    a suffix in [VIDEO_EXT] in [iterdir] order, the parsed [metadata.json]
    ([None] when the file is absent), the results of the chunk calls of its
    upload request, and the result of [shutil.move]. *)
Record job : Type := mk_job {
  folder_name : string;
  folder_videos : list video_file;
  folder_meta : option (outcome metadata);
  chunks : list chunk_result;
  move_result : outcome unit
}.

Definition find_video_meta (folder : job) : outcome (video_file * metadata) :=
  match folder_videos folder with
  | [] => Raise (FileNotFoundError "vidéo absente")
  | video :: _ =>
      match folder_meta folder with
      | None => Raise (FileNotFoundError "metadata.json manquant")
      | Some parsed => meta ← parsed; Ok (video, meta)
      end
  end.

(** The body of the [try] of one iteration. *)
Definition process_folder (folder : job) (when : option datetime) : M unit :=
  emit (Ev_find_video_meta (folder_name folder)) ;;
  '(video, meta) ← lift (find_video_meta folder);
  emit (Ev_log_upload (folder_name folder) when) ;;
  upload video meta when (chunks folder) ;;
  emit (Ev_move (folder_name folder)) ;;
  lift (move_result folder) ;;
  emit (Ev_log_archived (folder_name folder)).

(** The [except Exception] handler of [main]. *)
Definition log_failure (folder : job) (e : exn) : M unit :=
  emit (Ev_log_failure (folder_name folder) e).

(** [for folder, when in zip(folders, dates): try: ... except Exception] *)
Fixpoint main_loop (items : list (job * option datetime)) : M unit :=
  match items with
  | [] => mret tt
  | (folder, when) :: items' =>
      try_except (process_folder folder when) is_Exception (log_failure folder) ;;
      main_loop items'
  end.

Section Main.

Variable strptime_ymd : string → outcome Z.
Variable paris_utcoffset : Z → Z.

(** [folders] is what [choose_folders] returned; the service handle of
    [youtube_service] is represented by the chunk results of each folder. *)
Definition main (folders : list job) (now : datetime) (choice : string)
    (answers : list string) : M unit :=
  dates ← lift (planner strptime_ymd paris_utcoffset (length folders) now choice answers);
  main_loop (zip folders dates).

End Main.

Definition w0 : world := mk_world [] [].

(** ** choose_folders (lines 67-83)

    [dirs] are the sub-directories of the root in sorted order, each with
    what [find_video_meta] finds in it. The answer to the prompt is given as
    [parts]: its pieces between the commas, each stripped. *)

(** The scan loop; [i] numbers the directories from 1, complete or not.
    [valid] is the dictionary of the same name, [printed] the lines shown
    (number and folder name). Only [FileNotFoundError] is skipped. *)
Fixpoint scan_loop (i : nat) (dirs : list job) (valid : gmap string job)
    (printed : list (string * string))
    : outcome (gmap string job * list (string * string)) :=
  match dirs with
  | [] => Ok (valid, printed)
  | d :: dirs' =>
      match find_video_meta d with
      | Ok _ =>
          scan_loop (S i) dirs' (<[pretty i := d]> valid)
            (printed ++ [(pretty i, folder_name d)])
      | Raise (FileNotFoundError _) => scan_loop (S i) dirs' valid printed
      | Raise e => Raise e
      | Hang => Hang
      end
  end.

Definition scan (dirs : list job) : outcome (gmap string job * list (string * string)) :=
  scan_loop 1 dirs ∅ [].

Definition not_in_valid (valid : gmap string job) (s : string) : bool :=
  match valid !! s with
  | Some _ => false
  | None => true
  end.

Definition choose_folders (dirs : list job) (parts : list string)
    : outcome (list job) :=
  '(valid, _) ← scan dirs;
  if decide (size valid = 0%nat)
  then Raise (SystemExit "Aucun dossier complet trouvé (vidéo + metadata.json).")
  else
    let sel := filter (λ s, s ≠ EmptyString) parts in
    if bool_decide (sel = []) || (6 <? length sel)%nat
       || existsb (not_in_valid valid) sel
    then Raise (SystemExit "Sélection invalide.")
    else Ok (omap (λ s, valid !! s) sel).

(** [main] from its first line: the folders are chosen, then planned and
    uploaded. *)
Definition main_from_root (strptime_ymd : string → outcome Z)
    (paris_utcoffset : Z → Z) (dirs : list job) (parts : list string)
    (now : datetime) (choice : string) (answers : list string) : M unit :=
  folders ← lift (choose_folders dirs parts);
  main strptime_ymd paris_utcoffset folders now choice answers.

(** ** Measures used in the statements *)

(** The cumulative size the API counts: each tag's length plus one
    separator. *)
Definition tag_cost (t : string) : Z := Z.of_nat (String.length t) + 1.

Fixpoint tags_size (tags : list string) : Z :=
  match tags with
  | [] => 0
  | t :: tags' => tag_cost t + tags_size tags'
  end.

(** [d + td] and the margin clamp as values, for statements about runs in
    which no addition overflowed. *)
Definition shift (d : datetime) (td : Z) : datetime :=
  mk_datetime (wall_us d + td) (utcoffset_us d).

Definition base_today (now : datetime) : datetime :=
  mk_datetime (replace_hms (wall_us now) UPLOAD_HOUR) (utcoffset_us now).

Definition MIN_MARGIN : Z := timedelta 0 MIN_MARGIN_MIN.

Definition clamp (now cand : datetime) : datetime :=
  if dt_ge cand (shift now MIN_MARGIN) then cand else shift now MIN_MARGIN.

Definition daily_item (now : datetime) (i : nat) : option datetime :=
  Some (clamp now (shift (base_today now) (timedelta (Z.of_nat i) 0))).

Definition three_days_item (now : datetime) (i : nat) : option datetime :=
  Some (shift (clamp now (shift (base_today now) (timedelta 1 0)))
              (timedelta (3 * Z.of_nat i) 0)).

(** Values for the scenarios: Central European Time, 2024-03-01T09:30 in
    Paris, a console on which no date is well formed. *)
Definition CET : Z := US_PER_HOUR.

Definition scenario_now : datetime := datetime_of 2024 3 1 9 30 CET.

Definition no_date (ds : string) : outcome Z :=
  Raise (ValueError "time data does not match format").

Definition always_CET (w : Z) : Z := CET.

Definition scenario_video : video_file := mk_video "clip/clip.mp4" "clip".

Definition scenario_meta : metadata :=
  mk_metadata (Some "Titre") None (Some ["ai"; "ml"; "robotics"]).

(** The shape [YYYY-MM-DDTHH:MM:SSZ]: twenty characters, digits with the
    separators in place, the seconds followed by the final [Z]. *)
Definition is_digit (c : ascii) : bool :=
  let n := Z.of_nat (nat_of_ascii c) in (48 <=? n) && (n <=? 57).

Definition iso_shape (s : string) : bool :=
  match list_ascii_of_string s with
  | [y1; y2; y3; y4; sep1; m1; m2; sep2; d1; d2; sep3;
     h1; h2; sep4; mi1; mi2; sep5; s1; s2; z] =>
      forallb is_digit [y1; y2; y3; y4; m1; m2; d1; d2; h1; h2; mi1; mi2; s1; s2]
      && Ascii.eqb sep1 "-" && Ascii.eqb sep2 "-" && Ascii.eqb sep3 "T"
      && Ascii.eqb sep4 ":" && Ascii.eqb sep5 ":" && Ascii.eqb z "Z"
  | _ => false
  end.

(** [p r], [p (r + 1)], ... for [fuel] values. *)
Fixpoint all_from (p : Z → bool) (fuel : nat) (r : Z) : bool :=
  match fuel with
  | O => true
  | S fuel' => p r && all_from p fuel' (r + 1)
  end.

(** Within one cycle of 400 years the two calendar conversions agree. *)
Definition cycle_ok (r : Z) : bool :=
  let '(y, m, d) := ord2ymd (r + 1) in
  (ymd2ord y m d =? r + 1) && (1 <=? y) && (y <=? 400)
  && (1 <=? m) && (m <=? 12) && (1 <=? d) && (d <=? 31).

(** The wall value of 1000-01-01T00:00. *)
Definition YEAR_1000 : Z := ymd2ord 1000 1 1 * US_PER_DAY.

(** [w] followed by what a run from the empty world did. *)
Definition extend (w w' : world) : world :=
  mk_world (events w ++ events w') (held w ++ held w').

(** A computation only appends to the world it is given. *)
Definition framed {A : Type} (m : M A) : Prop :=
  ∀ w, m w = ((m w0).1, extend w (m w0).2).

(** The progress values shown, in order. *)
Definition shown (t : list event) : list Q :=
  omap (λ ev, match ev with Ev_progress_bar p => Some p | _ => None end) t.

(** How many events of a trace satisfy [p]. *)
Definition count (p : event → bool) (t : list event) : nat :=
  length (List.filter p t).

Definition is_next_chunk (ev : event) : bool :=
  match ev with Ev_next_chunk => true | _ => false end.

Definition is_insert (ev : event) : bool :=
  match ev with Ev_insert _ => true | _ => false end.

Definition is_move (folder : string) (ev : event) : bool :=
  match ev with Ev_move f => String.eqb f folder | _ => false end.

Definition is_failure (folder : string) (ev : event) : bool :=
  match ev with Ev_log_failure f _ => String.eqb f folder | _ => false end.

Definition is_find (ev : event) : option string :=
  match ev with Ev_find_video_meta f => Some f | _ => None end.

(** The chunk loop of [upload] with its [except HttpError] clause, run on
    its own. *)
Definition session (script : list chunk_result) : outcome response * world :=
  try_except (chunk_loop script 0%Q) is_HttpError log_and_reraise w0.

(** Each value shown is at least one step above the one shown before it,
    the first one above [last]. *)
Fixpoint steps_from (last : Q) (ps : list Q) : Prop :=
  match ps with
  | [] => True
  | p :: ps' => (PROGRESS_STEP <= p - last)%Q ∧ steps_from p ps'
  end.

(** A chunk call that returned without the final item. *)
Definition in_progress (c : chunk_result) : Prop :=
  ∃ status, c = Returns status None.

(** One iteration of the loop of [main], run on its own. *)
Definition iteration (folder : job) (when : option datetime) : outcome unit * world :=
  try_except (process_folder folder when) is_Exception (log_failure folder) w0.

(** How the upload of a folder ends: [Ok] is DONE, [Raise] is FAILED. *)
Definition upload_result (folder : job) (when : option datetime) : outcome unit :=
  '(video, meta) ← find_video_meta folder;
  (upload video meta when (chunks folder) w0).1.

(** The call returns, or raises an instance of [Exception]: it neither
    blocks for ever nor is interrupted. *)
Definition exception_only {A : Type} (r : outcome A) : Prop :=
  match r with
  | Ok _ => True
  | Raise e => is_Exception e = true
  | Hang => False
  end.

(** The surroundings of a folder let its iteration come to an end: the chunk
    calls reach one that returns the final item or raises, and whatever
    raises (reading the metadata, a chunk call, the move) raises an instance
    of [Exception]. *)
Definition settles (folder : job) : Prop :=
  match folder_meta folder with
  | Some parsed => exception_only parsed
  | None => True
  end ∧
  (∃ pre c rest,
     chunks folder = pre ++ c :: rest ∧ Forall in_progress pre ∧
     match c with
     | Raises e => is_Exception e = true
     | Returns _ resp => is_Some resp
     end) ∧
  exception_only (move_result folder).

(** The events [upload] itself records. *)
Definition of_upload (ev : event) : bool :=
  match ev with
  | Ev_MediaFileUpload _ | Ev_insert _ | Ev_next_chunk | Ev_progress_bar _
  | Ev_log_api_error _ | Ev_upload_done _ => true
  | _ => false
  end.

Definition batch_names (items : list (job * option datetime)) : list string :=
  map (λ it, folder_name it.1) items.

(** What [main] records for a folder before it moves it or logs its
    failure: the upload's own events and the line announcing the upload. *)
Definition before_end (ev : event) : Prop :=
  of_upload ev = true ∨ ∃ folder when, ev = Ev_log_upload folder when.

(** The archiver ran once for the folder's DONE upload, or never for its
    FAILED one, whose error is then logged against the folder. *)
Definition archived_iff_done (folder : job) (when : option datetime)
    (t : list event) : Prop :=
  (upload_result folder when = Ok tt →
     count (is_move (folder_name folder)) t = 1%nat) ∧
  (∀ e, upload_result folder when = Raise e →
     count (is_move (folder_name folder)) t = 0%nat ∧
     count (is_failure (folder_name folder)) t = 1%nat ∧
     Ev_log_failure (folder_name folder) e ∈ t).

(** A tag of [n] characters. *)
Definition tag_of_length (n : nat) : string :=
  string_of_list_ascii (replicate n "a"%char).

Definition scenario_failing : job :=
  mk_job "f1" [scenario_video] (Some (Ok scenario_meta))
    [Returns (Some (1 # 10)%Q) None; Raises (HttpError "quotaExceeded");
     Returns None (Some (mk_response "never"))]
    (Ok tt).

Definition scenario_passing : job :=
  mk_job "f2" [scenario_video] (Some (Ok scenario_meta))
    [Returns (Some (1 # 2)%Q) None; Returns None (Some (mk_response "dQw4"))]
    (Ok tt).

Definition scenario_batch : list (job * option datetime) :=
  [(scenario_failing, None); (scenario_passing, None)].

(** [find_video_meta] finds a video and readable metadata in the folder. *)
Definition is_complete (d : job) : bool :=
  match find_video_meta d with
  | Ok _ => true
  | _ => false
  end.

(** [find_video_meta] raises [FileNotFoundError] on the folder. *)
Definition is_skipped (d : job) : bool :=
  match find_video_meta d with
  | Raise (FileNotFoundError _) => true
  | _ => false
  end.

(** The selection: the non-empty pieces of the answer. *)
Definition selection (parts : list string) : list string :=
  filter (λ s, s ≠ EmptyString) parts.

Definition scenario_empty_dir : job := mk_job "f0" [] None [] (Ok tt).

Definition scenario_bad_json : job :=
  mk_job "f9" [scenario_video] (Some (Raise (ValueError "Expecting value"))) [] (Ok tt).

Definition scenario_dirs : list job :=
  [scenario_empty_dir; scenario_failing; scenario_passing].

(** A console reader that knows one date, 2024-02-01. *)
Definition one_date (ds : string) : outcome Z :=
  if String.eqb ds "2024-02-01" then Ok (ymd2ord 2024 2 1 * US_PER_DAY)
  else Raise (ValueError "time data does not match format").

(** The progress values the chunk calls report, in order. *)
Definition reported (script : list chunk_result) : list Q :=
  omap (λ c, match c with Returns (Some p) _ => Some p | _ => None end) script.

(** An event of the chunk loop itself. *)
Definition of_chunk_loop (ev : event) : Prop :=
  ev = Ev_next_chunk ∨ ∃ p, ev = Ev_progress_bar p.

Definition is_api_log (ev : event) : bool :=
  match ev with Ev_log_api_error _ => true | _ => false end.

(** The request body of an immediate upload of the scenario's video. *)
Definition scenario_public_body : request_body :=
  match build_body scenario_video scenario_meta None with
  | Ok body => body
  | _ => mk_body ∅ ∅
  end.

(** * Properties *)

Example ord_epoch : ymd2ord 1970 1 1 = 719163.
Proof. reflexivity. Qed.

Example ord_back : ord2ymd 738946 = (2024, 3, 1).
Proof. reflexivity. Qed.

Example iso_ex :
  iso (Some (datetime_of 2024 3 1 10 0 US_PER_HOUR)) = Ok (Some "2024-03-01T09:00:00Z").
Proof. reflexivity. Qed.

Example read_ex :
  read_iso_seconds "2024-03-01T09:00:00Z" = Some (738946 * 86400 + 9 * 3600).
Proof. reflexivity. Qed.

(** ** trim_tags *)

Example trim_tags_empty : trim_tags [] = [].
Proof. reflexivity. Qed.

Example trim_tags_oversized : trim_tags [tag_of_length 500; "ai"] = [].
Proof. reflexivity. Qed.

Example trim_tags_exact :
  tags_size [tag_of_length 399; tag_of_length 99] = 500 ∧
  trim_tags [tag_of_length 399; tag_of_length 99; "ai"]
    = [tag_of_length 399; tag_of_length 99].
Proof. split; reflexivity. Qed.

Example trim_tags_fortieth :
  tags_size (replicate 39 (tag_of_length 11) ++ [tag_of_length 32]) = 501 ∧
  trim_tags (replicate 39 (tag_of_length 11) ++ [tag_of_length 32; "ai"])
    = replicate 39 (tag_of_length 11).
Proof. split; vm_compute; reflexivity. Qed.

Lemma tag_cost_pos t : 0 < tag_cost t.
Proof. unfold tag_cost. lia. Qed.

Lemma tags_size_nonneg tags : 0 ≤ tags_size tags.
Proof. induction tags as [|t tags IH]; simpl; [lia|]. pose proof (tag_cost_pos t). lia. Qed.

Lemma tags_size_app l1 l2 : tags_size (l1 ++ l2) = tags_size l1 + tags_size l2.
Proof. induction l1 as [|t l1 IH]; simpl; lia. Qed.

(** The loop splits its input in the tags it keeps and the ones it drops:
    the kept ones fit, and the first dropped one would not. *)
Lemma trim_loop_split tags : ∀ total out,
  ∃ kept dropped,
    tags = kept ++ dropped ∧
    trim_loop tags total out = out ++ kept ∧
    (total ≤ 500 → total + tags_size kept ≤ 500) ∧
    (∀ t rest, dropped = t :: rest → 500 < total + tags_size kept + tag_cost t).
Proof.
  induction tags as [|t tags IH]; intros total out.
  - exists [], []. simpl. rewrite app_nil_r. repeat split; try lia. discriminate.
  - simpl. destruct (500 <? total + Z.of_nat (String.length t) + 1) eqn:Hcut.
    + exists [], (t :: tags). simpl. rewrite app_nil_r.
      repeat split; try lia.
      intros t' rest [= <- _]. apply Z.ltb_lt in Hcut. unfold tag_cost. lia.
    + apply Z.ltb_ge in Hcut.
      destruct (IH (total + Z.of_nat (String.length t) + 1) (out ++ [t]))
        as (kept & dropped & Htags & Hloop & Hfit & Hnext).
      exists (t :: kept), dropped. simpl. unfold tag_cost in *.
      repeat split.
      * by rewrite Htags.
      * by rewrite Hloop, <- app_assoc.
      * intros _. specialize (Hfit Hcut). lia.
      * intros t' rest Hd. specialize (Hnext t' rest Hd). lia.
Qed.

Lemma trim_loop_fits tags : ∀ total out,
  total + tags_size tags ≤ 500 → trim_loop tags total out = out ++ tags.
Proof.
  induction tags as [|t tags IH]; intros total out Hfit; simpl.
  - by rewrite app_nil_r.
  - simpl in Hfit. unfold tag_cost in Hfit.
    pose proof (tags_size_nonneg tags).
    destruct (500 <? total + Z.of_nat (String.length t) + 1) eqn:Hcut.
    + apply Z.ltb_lt in Hcut. lia.
    + rewrite IH by lia. by rewrite <- app_assoc.
Qed.

Lemma prefix_size_le (p l : list string) : p `prefix_of` l → tags_size p ≤ tags_size l.
Proof.
  intros [k ->]. rewrite tags_size_app. pose proof (tags_size_nonneg k). lia.
Qed.

Lemma trim_tags_within_budget tags : tags_size (trim_tags tags) ≤ 500.
Proof.
  destruct (trim_loop_split tags 0 []) as (kept & dropped & _ & Hloop & Hfit & _).
  unfold trim_tags. rewrite Hloop. simpl. lia.
Qed.

(** C2: [trim_tags] returns a prefix of its input, within the budget of 500,
    and the longest such prefix: the first dropped tag would overflow, every
    prefix within the budget is kept, a tag that brings the total to exactly
    500 included. *)
Theorem trim_tags_longest_prefix (tags : list string) :
  ∃ dropped,
    tags = trim_tags tags ++ dropped ∧
    tags_size (trim_tags tags) ≤ 500 ∧
    (∀ t rest, dropped = t :: rest →
       500 < tags_size (trim_tags tags) + tag_cost t) ∧
    (∀ p, p `prefix_of` tags → tags_size p ≤ 500 → p `prefix_of` trim_tags tags) ∧
    (∀ p t, (p ++ [t]) `prefix_of` tags → tags_size (p ++ [t]) = 500 →
       (p ++ [t]) `prefix_of` trim_tags tags).
Proof.
  destruct (trim_loop_split tags 0 []) as (kept & dropped & Htags & Hloop & Hfit & Hnext).
  unfold trim_tags. rewrite Hloop. simpl.
  assert (Hmax : ∀ p, p `prefix_of` tags → tags_size p ≤ 500 → p `prefix_of` kept).
  { intros p Hp Hsize.
    assert (Hk : kept `prefix_of` tags) by (by exists dropped).
    destruct (prefix_weak_total _ _ _ Hp Hk) as [Hpk | [k ->]]; [done|].
    destruct k as [|t' k]; [by rewrite app_nil_r|].
    rewrite Htags in Hp. apply prefix_app_inv in Hp. destruct Hp as [rest Hd].
    specialize (Hnext t' (k ++ rest) Hd).
    rewrite tags_size_app in Hsize. simpl in Hsize.
    pose proof (tags_size_nonneg k). lia. }
  exists dropped. repeat split.
  - done.
  - lia.
  - intros t rest Hd. specialize (Hnext t rest Hd). lia.
  - done.
  - intros p t Hp Hsize. apply Hmax; [done | lia].
Qed.

(** C10: trimming twice is trimming once. *)
Theorem trim_tags_idempotent (tags : list string) :
  trim_tags (trim_tags tags) = trim_tags tags.
Proof.
  pose proof (trim_tags_within_budget tags) as Hsize.
  unfold trim_tags at 1. by rewrite trim_loop_fits.
Qed.

(** ** next_valid and planner *)

Lemma dt_add_Ok d td r :
  dt_add d td = Ok r → r = shift d td ∧ in_range (wall_us d + td) = true.
Proof.
  unfold dt_add, shift. destruct (in_range (wall_us d + td)); [|discriminate].
  by intros [= <-].
Qed.

Lemma dt_add_in_range d td :
  in_range (wall_us d + td) = true → dt_add d td = Ok (shift d td).
Proof. unfold dt_add, shift. by intros ->. Qed.

Lemma instant_shift d td : instant (shift d td) = instant d + td.
Proof. unfold instant, shift. simpl. lia. Qed.

Lemma clamp_ge now cand : instant now + MIN_MARGIN ≤ instant (clamp now cand).
Proof.
  unfold clamp, dt_ge. rewrite <- instant_shift.
  destruct (instant (shift now MIN_MARGIN) <=? instant cand) eqn:Hge.
  - by apply Z.leb_le.
  - lia.
Qed.

Lemma clamp_cases now cand :
  (instant now + MIN_MARGIN ≤ instant cand ∧ clamp now cand = cand) ∨
  (instant cand < instant now + MIN_MARGIN ∧ clamp now cand = shift now MIN_MARGIN).
Proof.
  unfold clamp, dt_ge. rewrite instant_shift.
  destruct (instant now + MIN_MARGIN <=? instant cand) eqn:Hge.
  - left. by apply Z.leb_le in Hge.
  - right. by apply Z.leb_gt in Hge.
Qed.

Lemma next_valid_Ok dt now r :
  next_valid dt now MIN_MARGIN = Ok r → r = clamp now dt.
Proof.
  unfold next_valid, clamp.
  destruct (dt_add now MIN_MARGIN) as [limit| |] eqn:Hadd; simpl; try discriminate.
  apply dt_add_Ok in Hadd as [-> _].
  destruct (dt_ge dt (shift now MIN_MARGIN)); by intros [= <-].
Qed.

Lemma next_valid_in_range dt now :
  in_range (wall_us now + MIN_MARGIN) = true →
  next_valid dt now MIN_MARGIN = Ok (clamp now dt).
Proof.
  intros Hr. unfold next_valid, clamp. rewrite (dt_add_in_range _ _ Hr). simpl.
  by destruct (dt_ge dt (shift now MIN_MARGIN)).
Qed.

Lemma for_append_Ok {A} (f : nat → outcome A) range : ∀ dates plan,
  for_append f range dates = Ok plan →
  ∃ new, plan = dates ++ new ∧ Forall2 (λ i d, f i = Ok d) range new.
Proof.
  induction range as [|i range IH]; intros dates plan; simpl.
  - intros [= <-]. exists []. by rewrite app_nil_r.
  - destruct (f i) as [d| |] eqn:Hf; simpl; try discriminate.
    intros Hrest. apply IH in Hrest as (new & -> & Hall).
    exists (d :: new). split; [by rewrite <- app_assoc|]. by constructor.
Qed.

Lemma for_append_total {A} (f : nat → outcome A) (g : nat → A) range : ∀ dates,
  (∀ i, i ∈ range → f i = Ok (g i)) →
  for_append f range dates = Ok (dates ++ map g range).
Proof.
  induction range as [|i range IH]; intros dates Hf; simpl.
  - by rewrite app_nil_r.
  - rewrite Hf by set_solver. simpl. rewrite IH by set_solver.
    by rewrite <- app_assoc.
Qed.

Lemma Forall2_seq_lookup {A} (P : nat → A → Prop) (l : list A) start n :
  Forall2 P (seq start n) l →
  length l = n ∧ ∀ i, (i < n)%nat → ∃ x, l !! i = Some x ∧ P (start + i)%nat x.
Proof.
  intros H. split.
  - apply Forall2_length in H. by rewrite length_seq in H.
  - intros i Hi.
    assert (Hs : seq start n !! i = Some (start + i)%nat) by (by apply lookup_seq).
    destruct (Forall2_lookup_l _ _ _ _ _ H Hs) as (x & Hx & HP). eauto.
Qed.

Lemma manual_loop_Ok strptime_ymd paris_utcoffset now range :
  ∀ answers dates plan,
  manual_loop strptime_ymd paris_utcoffset now MIN_MARGIN range answers dates = Ok plan →
  ∃ new, plan = dates ++ new ∧ length new = length range ∧
    ∀ i, (i < length range)%nat →
      ∃ ds w, answers !! i = Some ds ∧ strptime_ymd ds = Ok w ∧
        new !! i = Some (Some (clamp now
          (paris_localize paris_utcoffset (replace_hour w UPLOAD_HOUR)))).
Proof.
  induction range as [|k range IH]; intros answers dates plan; simpl.
  - intros [= <-]. exists []. rewrite app_nil_r. repeat split. intros i Hi. lia.
  - destruct answers as [|ds answers]; [discriminate|].
    destruct (strptime_ymd ds) as [w| |] eqn:Hparse; simpl; try discriminate.
    destruct (next_valid _ now MIN_MARGIN) as [d| |] eqn:Hnv; simpl; try discriminate.
    apply next_valid_Ok in Hnv as ->.
    intros Hrest. apply IH in Hrest as (new & -> & Hlen & Hnew).
    eexists (_ :: new). split; [by rewrite <- app_assoc|]. split; [simpl; lia|].
    intros [|i] Hi.
    + exists ds, w. by repeat split.
    + simpl. apply Hnew. lia.
Qed.

Lemma for_append_Ok_map {A} (f : nat → outcome A) (g : nat → A) range :
  (∀ i d, f i = Ok d → d = g i) →
  ∀ dates plan, for_append f range dates = Ok plan → plan = dates ++ map g range.
Proof.
  intros Hfg dates plan Hplan.
  apply for_append_Ok in Hplan as (new & -> & Hall). f_equal.
  induction Hall as [|i d range new Hf _ IH]; simpl; [done|].
  by rewrite IH, (Hfg _ _ Hf).
Qed.

Lemma planner_daily_Ok strptime_ymd paris_utcoffset n now answers plan :
  planner strptime_ymd paris_utcoffset n now "1" answers = Ok plan →
  plan = map (daily_item now) (seq 0 n).
Proof.
  unfold planner. fold (base_today now). fold MIN_MARGIN. simpl.
  apply (for_append_Ok_map _ (daily_item now)). intros i d.
  destruct (dt_add (base_today now) _) as [cand| |] eqn:Hadd; simpl; try discriminate.
  apply dt_add_Ok in Hadd as [-> _].
  destruct (next_valid _ now MIN_MARGIN) as [v| |] eqn:Hnv; simpl; try discriminate.
  apply next_valid_Ok in Hnv as ->. by intros [= <-].
Qed.

Lemma planner_three_days_Ok strptime_ymd paris_utcoffset n now answers plan :
  planner strptime_ymd paris_utcoffset n now "2" answers = Ok plan →
  plan = map (three_days_item now) (seq 0 n).
Proof.
  unfold planner. fold (base_today now). fold MIN_MARGIN. simpl.
  destruct (dt_add (base_today now) (timedelta 1 0)) as [tomorrow| |] eqn:Hadd;
    simpl; try discriminate.
  apply dt_add_Ok in Hadd as [-> _].
  destruct (next_valid _ now MIN_MARGIN) as [start| |] eqn:Hnv; simpl; try discriminate.
  apply next_valid_Ok in Hnv as ->.
  apply (for_append_Ok_map _ (three_days_item now)). intros i d.
  destruct (dt_add _ _) as [v| |] eqn:Hadd; simpl; try discriminate.
  apply dt_add_Ok in Hadd as [-> _]. by intros [= <-].
Qed.

Lemma planner_manual_Ok strptime_ymd paris_utcoffset n now answers plan :
  planner strptime_ymd paris_utcoffset n now "4" answers = Ok plan →
  length plan = n ∧
  ∀ i, (i < n)%nat →
    ∃ ds w, answers !! i = Some ds ∧ strptime_ymd ds = Ok w ∧
      plan !! i = Some (Some (clamp now
        (paris_localize paris_utcoffset (replace_hour w UPLOAD_HOUR)))).
Proof.
  unfold planner. fold MIN_MARGIN. simpl. intros Hplan.
  apply manual_loop_Ok in Hplan as (new & -> & Hlen & Hat).
  rewrite length_seq in Hlen, Hat. by simpl.
Qed.

Lemma lookup_map_seq {A} (g : nat → A) n i x :
  map g (seq 0 n) !! i = Some x → (i < n)%nat ∧ x = g i.
Proof.
  rewrite list_lookup_fmap. intros H.
  destruct (seq 0 n !! i) as [j|] eqn:Hj; [|discriminate].
  apply lookup_seq in Hj as [-> Hi]. simpl in H. by injection H as <-.
Qed.

Lemma timedelta_days_nonneg (k : Z) : 0 ≤ k → 0 ≤ timedelta k 0.
Proof.
  unfold timedelta, US_PER_DAY, US_PER_HOUR, US_PER_MINUTE, US_PER_SECOND. lia.
Qed.

(** C1: in the modes DAILY ("1"), EVERY_THREE_DAYS ("2") and MANUAL ("4")
    the returned plan has one concrete instant per item, each at least
    MIN_MARGIN (20 minutes) after [now]. An instant that falls short of the
    margin is replaced by exactly [now + MIN_MARGIN]: per item in DAILY and
    MANUAL, once for the start in EVERY_THREE_DAYS, whose item [i] is the
    start plus [3 * i] days. *)
Theorem planner_min_margin strptime_ymd paris_utcoffset
    (n : nat) (now : datetime) (choice : string) (answers : list string)
    (plan : list (option datetime)) :
  choice ∈ ["1"; "2"; "4"] →
  planner strptime_ymd paris_utcoffset n now choice answers = Ok plan →
  length plan = n ∧
  (∀ i e, plan !! i = Some e →
     ∃ d, e = Some d ∧ instant now + 20 * US_PER_MINUTE ≤ instant d) ∧
  (choice = "1" → ∀ i, (i < n)%nat →
     plan !! i = Some (Some (clamp now
       (shift (base_today now) (timedelta (Z.of_nat i) 0))))) ∧
  (choice = "2" → ∀ i, (i < n)%nat →
     plan !! i = Some (Some (shift
       (clamp now (shift (base_today now) (timedelta 1 0)))
       (timedelta (3 * Z.of_nat i) 0)))) ∧
  (choice = "4" → ∀ i, (i < n)%nat →
     ∃ ds w, answers !! i = Some ds ∧ strptime_ymd ds = Ok w ∧
       plan !! i = Some (Some (clamp now
         (paris_localize paris_utcoffset (replace_hour w UPLOAD_HOUR))))) ∧
  (∀ cand, (instant now + 20 * US_PER_MINUTE ≤ instant cand ∧ clamp now cand = cand) ∨
           (instant cand < instant now + 20 * US_PER_MINUTE ∧
            clamp now cand = shift now (20 * US_PER_MINUTE))) ∧
  (∀ cand, in_range (wall_us now + 20 * US_PER_MINUTE) = true →
     next_valid cand now (20 * US_PER_MINUTE) = Ok (clamp now cand)).
Proof.
  intros Hchoice Hplan.
  assert (Hmargin : MIN_MARGIN = 20 * US_PER_MINUTE) by reflexivity.
  rewrite <- Hmargin.
  assert (Hshort : (∀ cand,
      (instant now + MIN_MARGIN ≤ instant cand ∧ clamp now cand = cand) ∨
      (instant cand < instant now + MIN_MARGIN ∧
       clamp now cand = shift now MIN_MARGIN)) ∧
    (∀ cand, in_range (wall_us now + MIN_MARGIN) = true →
       next_valid cand now MIN_MARGIN = Ok (clamp now cand))).
  { split; [apply clamp_cases|]. intros cand Hr. by apply next_valid_in_range. }
  apply elem_of_cons in Hchoice as [-> | Hchoice];
    [| apply elem_of_cons in Hchoice as [-> | Hchoice];
       [| apply list_elem_of_singleton in Hchoice as ->]].
  - (* DAILY *)
    apply planner_daily_Ok in Hplan as ->.
    split; [by rewrite length_map, length_seq|].
    split; [|split; [|split; [done|split; [done|exact Hshort]]]].
    + intros i e [_ ->]%lookup_map_seq. eexists. split; [done|]. apply clamp_ge.
    + intros _ i Hi. rewrite list_lookup_fmap, lookup_seq_lt by done. done.
  - (* EVERY_THREE_DAYS *)
    apply planner_three_days_Ok in Hplan as ->.
    split; [by rewrite length_map, length_seq|].
    split; [|split; [done|split; [|split; [done|exact Hshort]]]].
    + intros i e [_ ->]%lookup_map_seq. eexists. split; [done|].
      rewrite instant_shift.
      pose proof (clamp_ge now (shift (base_today now) (timedelta 1 0))).
      pose proof (timedelta_days_nonneg (3 * Z.of_nat i)). lia.
    + intros _ i Hi. rewrite list_lookup_fmap, lookup_seq_lt by done. done.
  - (* MANUAL *)
    apply planner_manual_Ok in Hplan as [Hlen Hat].
    split; [done|].
    split; [|split; [done|split; [done|split; [done|exact Hshort]]]].
    intros i e He. pose proof (lookup_lt_Some _ _ _ He) as Hi. rewrite Hlen in Hi.
    destruct (Hat i Hi) as (ds & w & _ & _ & Hnew). rewrite Hnew in He.
    injection He as <-. eexists. split; [done|]. apply clamp_ge.
Qed.

(** Within the years datetime supports, the planner returns. *)

Ltac range_arith :=
  unfold in_range, base_today, replace_hms, shift, MIN_MARGIN, timedelta,
    MIN_MARGIN_MIN, UPLOAD_HOUR, MAXORDINAL,
    US_PER_DAY, US_PER_HOUR, US_PER_MINUTE, US_PER_SECOND in *;
  simpl wall_us in *;
  rewrite ?andb_true_iff, ?Z.leb_le, ?Z.ltb_lt in *;
  Z.to_euclidean_division_equations; lia.

Lemma planner_daily_returns strptime_ymd paris_utcoffset n now answers :
  in_range (wall_us now) = true →
  in_range (wall_us now + timedelta (Z.of_nat n + 1) 0) = true →
  planner strptime_ymd paris_utcoffset n now "1" answers
    = Ok (map (daily_item now) (seq 0 n)).
Proof.
  intros Hlo Hhi. unfold planner. fold (base_today now). fold MIN_MARGIN. simpl.
  apply (for_append_total _ (daily_item now) (seq 0 n) []).
  intros i Hi%elem_of_seq.
  rewrite dt_add_in_range by (simpl; range_arith). simpl.
  rewrite next_valid_in_range by range_arith. done.
Qed.

Lemma planner_three_days_returns strptime_ymd paris_utcoffset n now answers :
  in_range (wall_us now) = true →
  in_range (wall_us now + timedelta (3 * Z.of_nat n + 2) 0) = true →
  planner strptime_ymd paris_utcoffset n now "2" answers
    = Ok (map (three_days_item now) (seq 0 n)).
Proof.
  intros Hlo Hhi. unfold planner. fold (base_today now). fold MIN_MARGIN. simpl.
  rewrite dt_add_in_range by (simpl; range_arith). simpl.
  rewrite next_valid_in_range by range_arith. simpl.
  apply (for_append_total _ (three_days_item now) (seq 0 n) []).
  intros i Hi%elem_of_seq.
  rewrite dt_add_in_range; [done|].
  destruct (clamp_cases now (shift (base_today now) (timedelta 1 0)))
    as [[_ ->] | [_ ->]]; range_arith.
Qed.

Lemma planner_min_margin_witness :
  "1" ∈ ["1"; "2"; "4"] ∧
  planner no_date always_CET 2 scenario_now "1" []
    = Ok [Some (datetime_of 2024 3 1 10 0 CET); Some (datetime_of 2024 3 2 10 0 CET)] ∧
  length [Some (datetime_of 2024 3 1 10 0 CET); Some (datetime_of 2024 3 2 10 0 CET)]
    = 2%nat.
Proof.
  assert (H1 : "1" ∈ ["1"; "2"; "4"]) by constructor.
  assert (H2 : planner no_date always_CET 2 scenario_now "1" []
    = Ok [Some (datetime_of 2024 3 1 10 0 CET); Some (datetime_of 2024 3 2 10 0 CET)])
    by reflexivity.
  split; [exact H1|]. split; [exact H2|].
  exact (proj1 (planner_min_margin _ _ _ _ _ _ _ H1 H2)).
Defined.

(** C3, as the code behaves: for 2 folders in DAILY mode with
    now = 2024-03-01T09:30 in Paris and the publish hour 10:00 the plan is
    [2024-03-01T10:00, 2024-03-02T10:00] Paris time. Today's 10:00 is 30
    minutes ahead, so the first entry is the candidate itself, not a clamped
    value; both entries are at least 20 minutes after now. *)
Theorem planner_daily_scenario strptime_ymd paris_utcoffset answers :
  planner strptime_ymd paris_utcoffset 2 scenario_now "1" answers
    = Ok [Some (datetime_of 2024 3 1 10 0 CET); Some (datetime_of 2024 3 2 10 0 CET)] ∧
  clamp scenario_now (base_today scenario_now) = datetime_of 2024 3 1 10 0 CET ∧
  dt_sub (datetime_of 2024 3 1 10 0 CET) scenario_now = 30 * US_PER_MINUTE ∧
  dt_sub (datetime_of 2024 3 2 10 0 CET) scenario_now
    = US_PER_DAY + 30 * US_PER_MINUTE ∧
  iso (Some (datetime_of 2024 3 1 10 0 CET)) = Ok (Some "2024-03-01T09:00:00Z") ∧
  iso (Some (datetime_of 2024 3 2 10 0 CET)) = Ok (Some "2024-03-02T09:00:00Z").
Proof. repeat split; reflexivity. Qed.

(** C3 as stated fails: the plan is not [2024-03-02T10:00, 2024-03-03T10:00]. *)
Lemma planner_daily_scenario_counterexample :
  planner no_date always_CET 2 scenario_now "1" []
    ≠ Ok [Some (datetime_of 2024 3 2 10 0 CET); Some (datetime_of 2024 3 3 10 0 CET)].
Proof. vm_compute. discriminate. Qed.

(** C8: in EVERY_THREE_DAYS mode with 3 items, consecutive items of the
    returned plan are exactly 3 days apart. *)
Theorem every_three_days_spacing strptime_ymd paris_utcoffset
    (now : datetime) (answers : list string) (plan : list (option datetime)) :
  planner strptime_ymd paris_utcoffset 3 now "2" answers = Ok plan →
  ∃ d0 d1 d2, plan = [Some d0; Some d1; Some d2] ∧
    dt_sub d1 d0 = timedelta 3 0 ∧ dt_sub d2 d1 = timedelta 3 0.
Proof.
  intros ->%planner_three_days_Ok. simpl. do 3 eexists. split; [reflexivity|].
  unfold dt_sub. rewrite !instant_shift. unfold timedelta. simpl. lia.
Qed.

Lemma every_three_days_spacing_witness :
  planner no_date always_CET 3 scenario_now "2" []
    = Ok [Some (datetime_of 2024 3 2 10 0 CET); Some (datetime_of 2024 3 5 10 0 CET);
          Some (datetime_of 2024 3 8 10 0 CET)] ∧
  ∃ d0 d1 d2,
    [Some (datetime_of 2024 3 2 10 0 CET); Some (datetime_of 2024 3 5 10 0 CET);
     Some (datetime_of 2024 3 8 10 0 CET)] = [Some d0; Some d1; Some d2] ∧
    dt_sub d1 d0 = timedelta 3 0 ∧ dt_sub d2 d1 = timedelta 3 0.
Proof.
  assert (H : planner no_date always_CET 3 scenario_now "2" []
    = Ok [Some (datetime_of 2024 3 2 10 0 CET); Some (datetime_of 2024 3 5 10 0 CET);
          Some (datetime_of 2024 3 8 10 0 CET)]) by reflexivity.
  split; [exact H|]. exact (every_three_days_spacing _ _ _ _ _ H).
Defined.

(** ** iso and the request body *)

Lemma digit_mod10 x :
  is_digit (digit (x mod 10)) = true ∧ digit_val (digit (x mod 10)) = Some (x mod 10).
Proof.
  assert (Hr : 0 ≤ x mod 10 < 10) by (apply Z.mod_pos_bound; lia).
  revert Hr. generalize (x mod 10). intros r Hr.
  assert (Hc : r = 0 ∨ r = 1 ∨ r = 2 ∨ r = 3 ∨ r = 4 ∨ r = 5 ∨ r = 6 ∨ r = 7
               ∨ r = 8 ∨ r = 9) by lia.
  repeat (destruct Hc as [-> | Hc]; [by split|]). by subst.
Qed.

Lemma read_digits_S k acc x s :
  read_digits (S k) acc (String (digit (x mod 10)) s)
  = read_digits k (10 * acc + x mod 10) s.
Proof.
  cbn [read_digits read_digit]. by destruct (digit_mod10 x) as [_ ->].
Qed.

Lemma read_pad2 n rest :
  0 ≤ n < 100 → read_digits 2 0 (pad2 n +:+ rest) = Some (n, rest).
Proof.
  intros Hn. cbv [pad2 String.append]. rewrite !read_digits_S. cbn [read_digits].
  do 2 f_equal. Z.to_euclidean_division_equations; lia.
Qed.

Lemma read_pad4 n rest :
  0 ≤ n < 10000 → read_digits 4 0 (pad4 n +:+ rest) = Some (n, rest).
Proof.
  intros Hn. cbv [pad4 pad2 String.append]. rewrite !read_digits_S. cbn [read_digits].
  do 2 f_equal. Z.to_euclidean_division_equations; lia.
Qed.

Lemma strftime_iso_shape d : iso_shape (strftime_iso d) = true.
Proof.
  unfold strftime_iso. destruct (ord2ymd _) as [[y m] dd].
  cbv [iso_shape pad4 pad2 String.append list_ascii_of_string forallb].
  repeat match goal with
  | |- context [is_digit (digit (?x mod 10))] =>
      rewrite (proj1 (digit_mod10 x))
  end.
  reflexivity.
Qed.

(** *** The calendar: [ord2ymd] and [ymd2ord] are inverse on ordinals *)

Lemma all_from_spec p fuel : ∀ r,
  all_from p fuel r = true → ∀ x, r ≤ x < r + Z.of_nat fuel → p x = true.
Proof.
  induction fuel as [|fuel IH]; intros r Hall x Hx; [lia|].
  simpl in Hall. apply andb_true_iff in Hall as [Hr Hrest].
  destruct (decide (x = r)) as [->|Hne]; [done|].
  apply (IH (r + 1)); [done | lia].
Qed.

Lemma cycle_checked : all_from cycle_ok (Z.to_nat DI400Y) 0 = true.
Proof. vm_compute. reflexivity. Qed.

Lemma cycle_ok_all r : 0 ≤ r < DI400Y → cycle_ok r = true.
Proof.
  intros Hr. apply (all_from_spec _ _ _ cycle_checked).
  rewrite Z2Nat.id by (unfold DI400Y; lia). lia.
Qed.

Lemma ord2ymd_cycle n :
  ord2ymd n =
    let '(y, m, d) := ord2ymd ((n - 1) mod DI400Y + 1) in
    (400 * ((n - 1) / DI400Y) + y, m, d).
Proof.
  assert (Hr : 0 ≤ (n - 1) mod DI400Y < DI400Y)
    by (apply Z.mod_pos_bound; unfold DI400Y; lia).
  unfold ord2ymd.
  replace ((n - 1) mod DI400Y + 1 - 1) with ((n - 1) mod DI400Y) by lia.
  rewrite (Z.mod_small ((n - 1) mod DI400Y) DI400Y) by done.
  rewrite (Z.div_small ((n - 1) mod DI400Y) DI400Y) by done.
  cbv zeta.
  repeat match goal with
  | |- context [if ?c then _ else _] => destruct c
  end; f_equal; try f_equal; lia.
Qed.

Lemma days_before_year_shift q y :
  days_before_year (400 * q + y) = DI400Y * q + days_before_year y.
Proof. unfold days_before_year, DI400Y. cbv zeta. Z.to_euclidean_division_equations. lia. Qed.

Lemma is_leap_shift q y : is_leap (400 * q + y) = is_leap y.
Proof.
  unfold is_leap.
  replace ((400 * q + y) mod 4) with (y mod 4) by (Z.to_euclidean_division_equations; lia).
  replace ((400 * q + y) mod 100) with (y mod 100) by (Z.to_euclidean_division_equations; lia).
  replace ((400 * q + y) mod 400) with (y mod 400) by (Z.to_euclidean_division_equations; lia).
  done.
Qed.

Lemma ymd2ord_shift q y m d :
  ymd2ord (400 * q + y) m d = DI400Y * q + ymd2ord y m d.
Proof. unfold ymd2ord. rewrite days_before_year_shift, is_leap_shift. lia. Qed.

Lemma days_before_month_nonneg leap m : 1 ≤ m ≤ 12 → 0 ≤ days_before_month leap m.
Proof.
  intros Hm. unfold days_before_month.
  assert (Hc : m = 1 ∨ m = 2 ∨ m = 3 ∨ m = 4 ∨ m = 5 ∨ m = 6 ∨ m = 7 ∨ m = 8
               ∨ m = 9 ∨ m = 10 ∨ m = 11 ∨ m = 12) by lia.
  repeat (destruct Hc as [-> | Hc]; [by destruct leap|]). subst. by destruct leap.
Qed.

Lemma ymd2ord_ord2ymd n :
  1 ≤ n ≤ MAXORDINAL →
  ∃ y m d, ord2ymd n = (y, m, d) ∧ ymd2ord y m d = n ∧
    1 ≤ y ≤ 9999 ∧ 1 ≤ m ≤ 12 ∧ 1 ≤ d ≤ 31.
Proof.
  intros Hn. unfold MAXORDINAL in Hn.
  assert (Hr : 0 ≤ (n - 1) mod DI400Y < DI400Y)
    by (apply Z.mod_pos_bound; unfold DI400Y; lia).
  pose proof (cycle_ok_all _ Hr) as Hok. unfold cycle_ok in Hok.
  rewrite ord2ymd_cycle.
  destruct (ord2ymd ((n - 1) mod DI400Y + 1)) as [[y m] d].
  rewrite !andb_true_iff, !Z.leb_le, Z.eqb_eq in Hok.
  destruct Hok as ((((((Hord & Hy1) & Hy2) & Hm1) & Hm2) & Hd1) & Hd2).
  exists (400 * ((n - 1) / DI400Y) + y), m, d.
  assert (Hback : ymd2ord (400 * ((n - 1) / DI400Y) + y) m d = n).
  { rewrite ymd2ord_shift, Hord. unfold DI400Y. Z.to_euclidean_division_equations. lia. }
  repeat split; try done.
  - unfold DI400Y. Z.to_euclidean_division_equations. lia.
  - pose proof (days_before_month_nonneg
      (is_leap (400 * ((n - 1) / DI400Y) + y)) m (conj Hm1 Hm2)) as Hdm.
    unfold ymd2ord in Hback. revert Hback Hdm.
    generalize (days_before_month (is_leap (400 * ((n - 1) `div` DI400Y) + y)) m).
    generalize (400 * ((n - 1) `div` DI400Y) + y). intros year dm Hback Hdm.
    unfold days_before_year in Hback. cbv zeta in Hback.
    Z.to_euclidean_division_equations. lia.
Qed.

(** *** The rendered text denotes the instant, to the second *)

Lemma expect_append c rest : expect c (String c EmptyString +:+ rest) = Some rest.
Proof. cbv [String.append expect]. by rewrite Ascii.eqb_refl. Qed.

Lemma expect_here c rest : expect c (String c rest) = Some rest.
Proof. cbv [expect]. by rewrite Ascii.eqb_refl. Qed.

Ltac clock_arith :=
  unfold MAXORDINAL, US_PER_DAY, US_PER_HOUR, US_PER_MINUTE, US_PER_SECOND in *;
  Z.to_euclidean_division_equations; lia.

Lemma strftime_iso_reads w :
  in_range w = true →
  read_iso_seconds (strftime_iso (mk_datetime w 0)) = Some (w / US_PER_SECOND).
Proof.
  intros Hw. unfold in_range in Hw.
  apply andb_true_iff in Hw as [Hlo%Z.leb_le Hhi%Z.ltb_lt].
  assert (Hdays : 1 ≤ w / US_PER_DAY ≤ MAXORDINAL) by clock_arith.
  destruct (ymd2ord_ord2ymd _ Hdays) as (y & m & d & Hymd & Hord & Hy & Hm & Hd).
  unfold strftime_iso. cbn [wall_us]. rewrite Hymd.
  assert (Htod : 0 ≤ w mod US_PER_DAY < US_PER_DAY)
    by (apply Z.mod_pos_bound; reflexivity).
  unfold read_iso_seconds.
  rewrite read_pad4 by lia. cbn [mbind option_bind].
  rewrite expect_append. cbn [mbind option_bind].
  rewrite read_pad2 by lia. cbn [mbind option_bind].
  rewrite expect_append. cbn [mbind option_bind].
  rewrite read_pad2 by lia. cbn [mbind option_bind].
  rewrite expect_append. cbn [mbind option_bind].
  rewrite read_pad2 by clock_arith. cbn [mbind option_bind].
  rewrite expect_append. cbn [mbind option_bind].
  rewrite read_pad2 by clock_arith. cbn [mbind option_bind].
  rewrite expect_append. cbn [mbind option_bind].
  rewrite read_pad2 by clock_arith. cbn [mbind option_bind].
  rewrite expect_here. cbn [mbind option_bind].
  rewrite Hord. f_equal. clock_arith.
Qed.

(** ** Runs only append to the world *)

Lemma extend_w0_l w : extend w0 w = w.
Proof. by destruct w. Qed.

Lemma extend_w0_r w : extend w w0 = w.
Proof. destruct w. unfold extend. simpl. by rewrite !app_nil_r. Qed.

Lemma extend_assoc w1 w2 w3 : extend (extend w1 w2) w3 = extend w1 (extend w2 w3).
Proof. unfold extend. simpl. by rewrite !app_assoc. Qed.

Lemma framed_ret {A} (a : A) : framed (mret a).
Proof. intros w. unfold mret, M_ret. simpl. by rewrite extend_w0_r. Qed.

Lemma framed_lift {A} (r : outcome A) : framed (lift r).
Proof. intros w. unfold lift. simpl. by rewrite extend_w0_r. Qed.

Lemma framed_emit ev : framed (emit ev).
Proof. intros w. unfold emit, extend. simpl. by rewrite app_nil_r. Qed.

Lemma framed_media_file_upload path : framed (media_file_upload path).
Proof. intros w. by unfold media_file_upload, extend. Qed.

Lemma framed_bind {A B} (m : M A) (f : A → M B) :
  framed m → (∀ a, framed (f a)) → framed (m ≫= f).
Proof.
  intros Hm Hf w. unfold mbind, M_bind. rewrite (Hm w).
  destruct (m w0) as [[a|e|] w1]; simpl; try done.
  rewrite (Hf a (extend w w1)), (Hf a w1). simpl. by rewrite extend_assoc.
Qed.

Lemma framed_try_except {A} (body : M A) class handler :
  framed body → (∀ e, framed (handler e)) → framed (try_except body class handler).
Proof.
  intros Hb Hh w. unfold try_except. rewrite (Hb w).
  destruct (body w0) as [[a|e|] w1]; simpl; try done.
  destruct (class e); [|done].
  rewrite (Hh e (extend w w1)), (Hh e w1). simpl. by rewrite extend_assoc.
Qed.

Create HintDb framed.
#[local] Hint Resolve framed_ret framed_lift framed_emit framed_media_file_upload
  framed_bind framed_try_except : framed.

Lemma framed_chunk_loop script : ∀ last_shown, framed (chunk_loop script last_shown).
Proof.
  induction script as [|[status resp|e] script IH]; intros last_shown; simpl.
  - auto with framed.
  - apply framed_bind; [auto with framed|]. intros _.
    apply framed_bind.
    + destruct status as [p|]; [|auto with framed].
      destruct (Qle_bool _ _); auto with framed.
    + intros last. destruct resp; auto with framed.
  - auto with framed.
Qed.
#[local] Hint Resolve framed_chunk_loop : framed.

Lemma framed_log_and_reraise e : framed (log_and_reraise e).
Proof. unfold log_and_reraise. auto with framed. Qed.
#[local] Hint Resolve framed_log_and_reraise : framed.

Lemma framed_upload video meta when script : framed (upload video meta when script).
Proof.
  unfold upload. fold log_and_reraise.
  repeat (apply framed_bind; [auto with framed|]; intros ?).
  auto with framed.
Qed.
#[local] Hint Resolve framed_upload : framed.

Lemma framed_process_folder folder when : framed (process_folder folder when).
Proof.
  unfold process_folder.
  apply framed_bind; [auto with framed|]; intros _.
  apply framed_bind; [auto with framed|]; intros [video meta].
  repeat (apply framed_bind; [auto with framed|]; intros ?).
  auto with framed.
Qed.
#[local] Hint Resolve framed_process_folder : framed.

Lemma framed_log_failure folder e : framed (log_failure folder e).
Proof. unfold log_failure. auto with framed. Qed.
#[local] Hint Resolve framed_log_failure : framed.

Lemma framed_main_loop items : framed (main_loop items).
Proof.
  induction items as [|[folder when] items IH]; simpl; auto with framed.
Qed.

(** ** upload *)

Lemma upload_run video meta when script body w :
  build_body video meta when = Ok body →
  upload video meta when script w =
    (match (session script).1 with
     | Ok _ => Ok tt
     | Raise e => Raise e
     | Hang => Hang
     end,
     extend w (mk_world
       ([Ev_MediaFileUpload (video_path video); Ev_insert body]
        ++ events (session script).2
        ++ match (session script).1 with
           | Ok resp => [Ev_upload_done (resp_id resp)]
           | _ => []
           end)
       ([video_path video] ++ held (session script).2))).
Proof.
  intros Hbody.
  unfold upload. fold log_and_reraise. unfold mbind, M_bind, lift.
  rewrite Hbody. cbn [media_file_upload emit events held].
  rewrite (framed_try_except _ _ _ (framed_chunk_loop script 0%Q) framed_log_and_reraise).
  fold (session script).
  destruct (session script) as [[resp|e|] w1]; unfold extend, emit; simpl;
    by rewrite ?app_nil_r, <- ?app_assoc.
Qed.

Lemma upload_not_sent video meta when script w :
  (∀ body, build_body video meta when ≠ Ok body) →
  (upload video meta when script w).2 = w.
Proof.
  intros Hno. unfold upload, mbind, M_bind, lift.
  destruct (build_body video meta when) as [body| |]; simpl; try done.
  by destruct (Hno body).
Qed.

Lemma build_body_Ok video meta when body :
  build_body video meta when = Ok body →
  status body =
    match when with
    | None => <["selfDeclaredMadeForKids" := JBool false]>
                (<["privacyStatus" := JStr "public"]> ∅)
    | Some d =>
        <["publishAt" := JStr (strftime_iso (mk_datetime (instant d) 0))]>
          (<["selfDeclaredMadeForKids" := JBool false]>
            (<["privacyStatus" := JStr "private"]> ∅))
    end ∧
  match when with
  | None => True
  | Some d => in_range (instant d) = true
  end.
Proof.
  unfold build_body, iso, astimezone_utc. fold (instant (default (mk_datetime 0 0) when)).
  destruct when as [d|]; simpl.
  - fold (instant d). destruct (in_range (instant d)); simpl; [|discriminate].
    by intros [= <-].
  - by intros [= <-].
Qed.

Lemma build_body_returns video meta when :
  match when with Some d => in_range (instant d) = true | None => True end →
  ∃ body, build_body video meta when = Ok body.
Proof.
  unfold build_body, iso, astimezone_utc. destruct when as [d|]; simpl; [|eauto].
  fold (instant d). intros ->. simpl. eauto.
Qed.

(** C4: the status block of the request body of an upload. [privacyStatus]
    is "public" for the immediate marker and "private" otherwise,
    [selfDeclaredMadeForKids] is false, and [publishAt] is present exactly
    when the entry is not immediate. It then holds the text [iso] renders,
    of the shape YYYY-MM-DDTHH:MM:SSZ (seconds directly followed by the
    final Z), which read back is the instant on the UTC time line in whole
    seconds; stated for instants from the year 1000 on, where every C
    library writes the year with four digits. This body is the one handed
    to [insert]. *)
Theorem upload_status_block video meta when body :
  build_body video meta when = Ok body →
  status body !! "privacyStatus"
    = Some (JStr (if when is None then "public" else "private")) ∧
  status body !! "selfDeclaredMadeForKids" = Some (JBool false) ∧
  (is_Some (status body !! "publishAt") ↔ when ≠ None) ∧
  (∀ d, when = Some d → YEAR_1000 ≤ instant d →
     ∃ text, status body !! "publishAt" = Some (JStr text) ∧
       iso (Some d) = Ok (Some text) ∧
       iso_shape text = true ∧
       read_iso_seconds text = Some (instant d / US_PER_SECOND)) ∧
  (∀ script w, ∃ tail,
     events (upload video meta when script w).2
     = events w ++ Ev_MediaFileUpload (video_path video) :: Ev_insert body :: tail).
Proof.
  intros Hbody. pose proof (build_body_Ok _ _ _ _ Hbody) as [Hstatus Hrange].
  rewrite Hstatus. repeat split.
  - by destruct when.
  - by destruct when.
  - destruct when; [done|]. by intros [? ?].
  - destruct when; [eauto|done].
  - intros d -> _. eexists. split; [by rewrite lookup_insert_eq|].
    unfold iso, astimezone_utc. fold (instant d). rewrite Hrange. simpl.
    split; [done|]. split; [apply strftime_iso_shape|].
    by apply strftime_iso_reads.
  - intros script w. rewrite (upload_run _ _ _ _ _ _ Hbody). simpl. eauto.
Qed.

Lemma upload_status_block_witness :
  ∃ body,
    build_body scenario_video scenario_meta (Some (datetime_of 2024 3 1 10 0 CET))
      = Ok body ∧
    status body !! "privacyStatus" = Some (JStr "private").
Proof.
  eexists. split; [reflexivity|].
  exact (proj1 (upload_status_block scenario_video scenario_meta
                  (Some (datetime_of 2024 3 1 10 0 CET)) _ eq_refl)).
Defined.

(** ** The chunk loop *)

Lemma chunk_loop_nil last_shown :
  chunk_loop [] last_shown w0 = (Hang, mk_world [Ev_next_chunk] []).
Proof. reflexivity. Qed.

Lemma chunk_loop_Raises e script last_shown :
  chunk_loop (Raises e :: script) last_shown w0
  = (Raise e, mk_world [Ev_next_chunk] []).
Proof. reflexivity. Qed.

(** One turn of the loop on a call that returned. *)
Lemma chunk_loop_Returns status resp script last_shown :
  chunk_loop (Returns status resp :: script) last_shown w0 =
    let show :=
      match status with
      | Some p => Qle_bool PROGRESS_STEP (p - last_shown)
      | None => false
      end in
    let last := if show then default last_shown status else last_shown in
    let bar := if show then [Ev_progress_bar last] else [] in
    match resp with
    | Some r => (Ok r, mk_world (Ev_next_chunk :: bar) [])
    | None =>
        ((chunk_loop script last w0).1,
         mk_world (Ev_next_chunk :: bar ++ events (chunk_loop script last w0).2)
                  (held (chunk_loop script last w0).2))
    end.
Proof.
  cbn [chunk_loop]. unfold mbind, M_bind, emit. simpl.
  destruct status as [p|]; simpl.
  - destruct (Qle_bool PROGRESS_STEP (p - last_shown)); simpl.
    + destruct resp as [r|]; [done|].
      by rewrite (framed_chunk_loop script p (mk_world _ _)).
    + destruct resp as [r|]; [done|].
      by rewrite (framed_chunk_loop script last_shown (mk_world _ _)).
  - destruct resp as [r|]; [done|].
    by rewrite (framed_chunk_loop script last_shown (mk_world _ _)).
Qed.

Lemma chunk_loop_held script : ∀ last_shown,
  held (chunk_loop script last_shown w0).2 = [].
Proof.
  induction script as [|[status resp|e] script IH]; intros last_shown; [done| |done].
  rewrite chunk_loop_Returns. cbv zeta. destruct resp; [done|]. simpl. apply IH.
Qed.

Lemma chunk_loop_steps script : ∀ last_shown,
  steps_from last_shown (shown (events (chunk_loop script last_shown w0).2)).
Proof.
  induction script as [|[status resp|e] script IH]; intros last_shown; [done| |done].
  rewrite chunk_loop_Returns. cbv zeta.
  destruct status as [p|]; simpl.
  - destruct (Qle_bool PROGRESS_STEP (p - last_shown)) eqn:Hstep; simpl.
    + apply Qle_bool_iff in Hstep.
      destruct resp as [r|]; simpl; [done|]. split; [done|]. apply IH.
    + destruct resp as [r|]; simpl; [done|]. apply IH.
  - destruct resp as [r|]; simpl; [done|]. apply IH.
Qed.

(** While the calls return without the final item the loop goes on, one
    [next_chunk] per call; what it does depends on these calls only. *)
Lemma chunk_loop_in_progress pre : ∀ last_shown,
  Forall in_progress pre →
  ∃ last t,
    (∀ script,
       chunk_loop (pre ++ script) last_shown w0 =
         ((chunk_loop script last w0).1,
          mk_world (t ++ events (chunk_loop script last w0).2) [])) ∧
    count is_next_chunk t = length pre.
Proof.
  induction pre as [|c pre IH]; intros last_shown Hpre.
  - exists last_shown, []. split; [|done]. intros script. simpl.
    rewrite <- (chunk_loop_held script last_shown).
    by destruct (chunk_loop _ _ _) as [? []].
  - apply Forall_cons in Hpre as [[status ->] Hpre].
    set (show := match status with
                 | Some p => Qle_bool PROGRESS_STEP (p - last_shown)
                 | None => false
                 end).
    set (last := if show then default last_shown status else last_shown).
    destruct (IH last Hpre) as (last' & t & Hrun & Hcount).
    exists last', (Ev_next_chunk :: (if show then [Ev_progress_bar last] else []) ++ t).
    split.
    + intros script. simpl app. rewrite chunk_loop_Returns. cbv zeta.
      fold show. fold last. rewrite Hrun. simpl. by rewrite <- app_assoc.
    + unfold count in *. destruct show; simpl; lia.
Qed.

Lemma session_run script :
  session script =
    ((chunk_loop script 0%Q w0).1,
     mk_world
       (events (chunk_loop script 0%Q w0).2
        ++ match (chunk_loop script 0%Q w0).1 with
           | Raise e => if is_HttpError e then [Ev_log_api_error e] else []
           | _ => []
           end)
       []).
Proof.
  unfold session, try_except, log_and_reraise.
  pose proof (chunk_loop_held script 0%Q) as Hheld.
  destruct (chunk_loop script 0%Q w0) as [[r|e|] [t h]]; simpl in *; subst;
    rewrite ?app_nil_r; try done.
  destruct (is_HttpError e); simpl; by rewrite ?app_nil_r.
Qed.

Lemma shown_app t1 t2 : shown (t1 ++ t2) = shown t1 ++ shown t2.
Proof. apply omap_app. Qed.

Lemma session_shown script :
  shown (events (session script).2) = shown (events (chunk_loop script 0%Q w0).2).
Proof.
  rewrite session_run. simpl. rewrite shown_app.
  destruct (chunk_loop script 0%Q w0).1 as [r|e|]; simpl; rewrite ?app_nil_r; try done.
  destruct (is_HttpError e); simpl; by rewrite ?app_nil_r.
Qed.

Lemma steps_from_pairs ps : ∀ last,
  steps_from last ps →
  ∀ i a b, ps !! i = Some a → ps !! S i = Some b → (PROGRESS_STEP <= b - a)%Q.
Proof.
  induction ps as [|p ps IH]; intros last Hsteps i a b Ha Hb; [done|].
  destruct Hsteps as [_ Hsteps]. destruct i as [|i].
  - injection Ha as ->. destruct ps as [|q ps]; [done|].
    injection Hb as ->. by destruct Hsteps.
  - by apply (IH p Hsteps i).
Qed.

Example progress_shown_example :
  shown (events (upload scenario_video scenario_meta None
    [Returns (Some (6 # 100)%Q) None; Returns (Some (8 # 100)%Q) None;
     Returns (Some (11 # 100)%Q) None; Returns None None;
     Returns (Some (20 # 100)%Q) None; Returns None (Some (mk_response "id"))]
    w0).2)
  = [(6 # 100)%Q; (11 # 100)%Q; (20 # 100)%Q].
Proof. reflexivity. Qed.

(** C5: the progress values shown during one upload, in order. Each is at
    least PROGRESS_STEP above the one shown before it (the first one above
    the initial 0), so the sequence does not decrease, whatever the chunk
    calls report. Values are exact rationals here; the rounding of binary
    floating point is not modelled. *)
Theorem progress_steps video meta when script w :
  ∃ t, events (upload video meta when script w).2 = events w ++ t ∧
    steps_from 0 (shown t) ∧
    ∀ i a b, shown t !! i = Some a → shown t !! S i = Some b →
      (a <= b)%Q ∧ (PROGRESS_STEP <= b - a)%Q.
Proof.
  assert (Hgoal : ∃ t, events (upload video meta when script w).2 = events w ++ t ∧
                       steps_from 0 (shown t)).
  { destruct (build_body video meta when) as [body| |] eqn:Hbody.
    - rewrite (upload_run _ _ _ _ _ _ Hbody). simpl. eexists. split; [done|].
      match goal with
      | |- steps_from _ (shown (_ :: _ :: ?l)) => change (steps_from 0 (shown l))
      end.
      rewrite shown_app, session_shown.
      replace (shown (match _ with Ok _ => _ | _ => _ end)) with (@nil Q)
        by (by destruct (session script).1).
      rewrite app_nil_r. apply chunk_loop_steps.
    - exists []. rewrite upload_not_sent, app_nil_r; [done|]. intros b. congruence.
    - exists []. rewrite upload_not_sent, app_nil_r; [done|]. intros b. congruence. }
  destruct Hgoal as (t & Ht & Hsteps). exists t.
  split; [done|]. split; [done|]. intros i a b Ha Hb.
  pose proof (steps_from_pairs _ _ Hsteps i a b Ha Hb) as Hstep.
  split; [|done]. unfold PROGRESS_STEP in Hstep. lra.
Qed.

(** ** What upload records *)

Lemma chunk_loop_of_upload script : ∀ last_shown,
  Forall (λ ev, of_upload ev = true) (events (chunk_loop script last_shown w0).2).
Proof.
  induction script as [|[status resp|e] script IH]; intros last_shown.
  - by repeat constructor.
  - rewrite chunk_loop_Returns. cbv zeta.
    destruct resp as [r|]; simpl.
    + destruct (match status with Some _ => _ | None => _ end); by repeat constructor.
    + constructor; [done|]. apply Forall_app. split; [|apply IH].
      destruct (match status with Some _ => _ | None => _ end); by repeat constructor.
  - by repeat constructor.
Qed.

Lemma session_of_upload script :
  Forall (λ ev, of_upload ev = true) (events (session script).2).
Proof.
  rewrite session_run. simpl. apply Forall_app. split; [apply chunk_loop_of_upload|].
  destruct (chunk_loop script 0%Q w0).1 as [r|e|]; try done.
  destruct (is_HttpError e); by repeat constructor.
Qed.

Lemma upload_of_upload video meta when script :
  Forall (λ ev, of_upload ev = true) (events (upload video meta when script w0).2).
Proof.
  destruct (build_body video meta when) as [body| |] eqn:Hbody.
  - rewrite (upload_run _ _ _ _ _ _ Hbody). simpl.
    do 2 (constructor; [done|]). apply Forall_app. split; [apply session_of_upload|].
    destruct (session script).1; by repeat constructor.
  - rewrite upload_not_sent; [done|]. intros b. congruence.
  - rewrite upload_not_sent; [done|]. intros b. congruence.
Qed.

Lemma count_app p t1 t2 : count p (t1 ++ t2) = (count p t1 + count p t2)%nat.
Proof. unfold count. by rewrite List.filter_app, length_app. Qed.

Lemma count_none p t : Forall (λ ev, p ev = false) t → count p t = 0%nat.
Proof.
  unfold count. induction 1 as [|ev t Hev _ IH]; simpl; [done|]. by rewrite Hev.
Qed.

Lemma count_of_upload p t :
  (∀ ev, of_upload ev = true → p ev = false) →
  Forall (λ ev, of_upload ev = true) t → count p t = 0%nat.
Proof. intros Hp Ht. apply count_none. eapply Forall_impl; [exact Ht|]. auto. Qed.

(** ** One iteration of main's loop *)

Lemma process_folder_run folder when :
  process_folder folder when w0 =
    match find_video_meta folder with
    | Ok (video, meta) =>
        let u := upload video meta when (chunks folder) w0 in
        let started :=
          [Ev_find_video_meta (folder_name folder);
           Ev_log_upload (folder_name folder) when] ++ events u.2 in
        match u.1 with
        | Ok _ =>
            match move_result folder with
            | Ok _ =>
                (Ok tt, mk_world (started ++ [Ev_move (folder_name folder);
                                              Ev_log_archived (folder_name folder)])
                                 (held u.2))
            | Raise e =>
                (Raise e, mk_world (started ++ [Ev_move (folder_name folder)]) (held u.2))
            | Hang =>
                (Hang, mk_world (started ++ [Ev_move (folder_name folder)]) (held u.2))
            end
        | Raise e => (Raise e, mk_world started (held u.2))
        | Hang => (Hang, mk_world started (held u.2))
        end
    | Raise e => (Raise e, mk_world [Ev_find_video_meta (folder_name folder)] [])
    | Hang => (Hang, mk_world [Ev_find_video_meta (folder_name folder)] [])
    end.
Proof.
  unfold process_folder, mbind, M_bind, emit, lift. simpl.
  destruct (find_video_meta folder) as [[video meta]| |]; try done. simpl.
  rewrite (framed_upload video meta when (chunks folder) (mk_world _ _)).
  destruct (upload video meta when (chunks folder) w0) as [[[]|e|] [t h]];
    unfold extend; simpl; try done.
  destruct (move_result folder) as [[]| |]; simpl; by rewrite <- ?app_assoc.
Qed.

Lemma iteration_run folder when :
  iteration folder when =
    match (process_folder folder when w0).1 with
    | Raise e =>
        if is_Exception e
        then (Ok tt, mk_world (events (process_folder folder when w0).2
                               ++ [Ev_log_failure (folder_name folder) e])
                              (held (process_folder folder when w0).2))
        else process_folder folder when w0
    | _ => process_folder folder when w0
    end.
Proof.
  unfold iteration, try_except, log_failure, emit.
  destruct (process_folder folder when w0) as [[[]|e|] [t h]]; simpl; try done;
    by destruct (is_Exception e).
Qed.

(** The shape of the trace of an iteration that comes to an end. *)
Lemma iteration_trace folder when :
  exception_only (process_folder folder when w0).1 →
  ∃ mid tail h,
    iteration folder when
      = (Ok tt, mk_world ([Ev_find_video_meta (folder_name folder)] ++ mid ++ tail) h) ∧
    Forall before_end mid ∧
    ((upload_result folder when = Ok tt ∧
      (tail = [Ev_move (folder_name folder); Ev_log_archived (folder_name folder)] ∨
       ∃ e, tail = [Ev_move (folder_name folder); Ev_log_failure (folder_name folder) e])) ∨
     (∃ e, upload_result folder when = Raise e ∧
           tail = [Ev_log_failure (folder_name folder) e])).
Proof.
  rewrite iteration_run, process_folder_run. unfold upload_result.
  destruct (find_video_meta folder) as [[video meta]|e|]; simpl; [| |done].
  - pose proof (upload_of_upload video meta when (chunks folder)) as Hup.
    assert (Hmid : Forall before_end
      (Ev_log_upload (folder_name folder) when
       :: events (upload video meta when (chunks folder) w0).2)).
    { constructor; [right; eauto|]. eapply Forall_impl; [exact Hup|]. by left. }
    destruct (upload video meta when (chunks folder) w0) as [[[]|e|] [t h]];
      simpl in *; [| |done].
    + destruct (move_result folder) as [[]|e|]; simpl; [| |done].
      * intros _.
        exists (Ev_log_upload (folder_name folder) when :: t),
          [Ev_move (folder_name folder); Ev_log_archived (folder_name folder)], h.
        split; [done|]. split; [exact Hmid|]. left. split; [done|by left].
      * intros ->.
        exists (Ev_log_upload (folder_name folder) when :: t),
          [Ev_move (folder_name folder); Ev_log_failure (folder_name folder) e], h.
        split; [simpl; by rewrite <- app_assoc|]. split; [exact Hmid|].
        left. split; [done|]. right. by exists e.
    + intros ->.
      exists (Ev_log_upload (folder_name folder) when :: t),
        [Ev_log_failure (folder_name folder) e], h.
      split; [done|]. split; [exact Hmid|]. right. by exists e.
  - intros ->. exists [], [Ev_log_failure (folder_name folder) e], [].
    split; [done|]. split; [done|]. right. by exists e.
Qed.

Lemma before_end_quiet mid :
  Forall before_end mid →
  omap is_find mid = [] ∧
  ∀ name, count (is_move name) mid = 0%nat ∧ count (is_failure name) mid = 0%nat.
Proof.
  induction 1 as [|ev mid Hev _ [IHf IHc]]; [done|]. split.
  - destruct Hev as [Hev | (f & w & ->)]; [destruct ev; try discriminate|]; exact IHf.
  - intros name. destruct (IHc name) as [IHm IHl]. unfold count in *.
    destruct Hev as [Hev | (f & w & ->)]; [destruct ev; try discriminate|]; by simpl.
Qed.

Ltac count_names :=
  unfold count; simpl; rewrite ?String.eqb_refl;
  repeat match goal with
  | Hne : ?n ≠ ?m |- context [String.eqb ?m ?n] =>
      rewrite (proj2 (String.eqb_neq m n)) by congruence
  end;
  simpl; done.

Lemma iteration_facts folder when :
  exception_only (process_folder folder when w0).1 →
  (iteration folder when).1 = Ok tt ∧
  omap is_find (events (iteration folder when).2) = [folder_name folder] ∧
  archived_iff_done folder when (events (iteration folder when).2) ∧
  ∀ name, name ≠ folder_name folder →
    count (is_move name) (events (iteration folder when).2) = 0%nat ∧
    count (is_failure name) (events (iteration folder when).2) = 0%nat.
Proof.
  intros Hex.
  destruct (iteration_trace _ _ Hex) as (mid & tail & h & Hrun & Hmid & Hend).
  rewrite Hrun. cbn [fst snd events].
  destruct (before_end_quiet _ Hmid) as [Hfind Hquiet].
  assert (Hcm : ∀ name, count (is_move name)
      ([Ev_find_video_meta (folder_name folder)] ++ mid ++ tail)
      = count (is_move name) tail).
  { intros name. rewrite !count_app. by destruct (Hquiet name) as [-> _]. }
  assert (Hcf : ∀ name, count (is_failure name)
      ([Ev_find_video_meta (folder_name folder)] ++ mid ++ tail)
      = count (is_failure name) tail).
  { intros name. rewrite !count_app. by destruct (Hquiet name) as [_ ->]. }
  assert (Hfd : omap is_find ([Ev_find_video_meta (folder_name folder)] ++ mid ++ tail)
      = folder_name folder :: omap is_find tail).
  { by rewrite !omap_app, Hfind. }
  unfold archived_iff_done. rewrite Hfd.
  split; [done|].
  destruct Hend as [[Hres [-> | [e ->]]] | [e [Hres ->]]]; rewrite Hres.
  - split; [done|]. split.
    + split; [intros _; rewrite Hcm; count_names | discriminate].
    + intros name Hne. rewrite Hcm, Hcf. split; count_names.
  - split; [done|]. split.
    + split; [intros _; rewrite Hcm; count_names | discriminate].
    + intros name Hne. rewrite Hcm, Hcf. split; count_names.
  - split; [done|]. split.
    + split; [discriminate|]. intros e' [= <-]. rewrite Hcm, Hcf.
      split; [count_names|]. split; [count_names|].
      rewrite !elem_of_app. right. right. by apply list_elem_of_singleton.
    + intros name Hne. rewrite Hcm, Hcf. split; count_names.
Qed.

(** ** main's loop over the batch *)

Lemma main_loop_cons folder when items :
  (iteration folder when).1 = Ok tt →
  main_loop ((folder, when) :: items) w0 =
    ((main_loop items w0).1, extend (iteration folder when).2 (main_loop items w0).2).
Proof.
  intros Hit. cbn [main_loop]. unfold mbind, M_bind.
  change (try_except _ _ _ w0) with (iteration folder when).
  destruct (iteration folder when) as [[[]|e|] w1]; simpl in *; try done.
  by rewrite (framed_main_loop items w1).
Qed.

Lemma main_loop_batch items :
  Forall (λ it, exception_only (process_folder it.1 it.2 w0).1) items →
  (main_loop items w0).1 = Ok tt ∧
  omap is_find (events (main_loop items w0).2) = batch_names items ∧
  (∀ name, name ∉ batch_names items →
     count (is_move name) (events (main_loop items w0).2) = 0%nat ∧
     count (is_failure name) (events (main_loop items w0).2) = 0%nat) ∧
  (NoDup (batch_names items) →
   ∀ folder when, (folder, when) ∈ items →
     archived_iff_done folder when (events (main_loop items w0).2)).
Proof.
  induction 1 as [|[folder when] items Hex _ (IHok & IHfind & IHout & IHin)].
  - split; [done|]. split; [done|]. split; [done|].
    intros _ folder when Hin. by apply elem_of_nil in Hin.
  - simpl in Hex.
    destruct (iteration_facts _ _ Hex) as (Hok & Hfind & Hhere & Hother).
    rewrite (main_loop_cons _ _ _ Hok). cbn [fst snd extend events].
    split; [done|]. split; [by rewrite omap_app, Hfind, IHfind|]. split.
    + intros name Hname. simpl in Hname. apply not_elem_of_cons in Hname as [Hne Hrest].
      rewrite !count_app. destruct (Hother name Hne) as [-> ->].
      by destruct (IHout name Hrest) as [-> ->].
    + intros Hnodup folder' when' Hin. simpl in Hnodup.
      apply NoDup_cons in Hnodup as [Hfresh Hnodup].
      apply elem_of_cons in Hin as [[= -> ->] | Hin].
      * destruct (IHout _ Hfresh) as [Hm Hf]. destruct Hhere as [Hdone Hfail].
        split.
        -- intros Hres. rewrite count_app, Hm, (Hdone Hres). done.
        -- intros e Hres. destruct (Hfail e Hres) as (Hc1 & Hc2 & Hlog).
           rewrite !count_app, Hm, Hf, Hc1, Hc2. repeat split; try done.
           apply elem_of_app. by left.
      * assert (Hne : folder_name folder' ≠ folder_name folder).
        { intros Heq. apply Hfresh. rewrite <- Heq. unfold batch_names.
          apply (list_elem_of_fmap_2 (λ it, folder_name it.1) _ _ Hin). }
        destruct (Hother _ Hne) as [Hm Hf].
        destruct (IHin Hnodup folder' when' Hin) as [Hdone Hfail]. split.
        -- intros Hres. rewrite count_app, Hm, (Hdone Hres). done.
        -- intros e Hres. destruct (Hfail e Hres) as (Hc1 & Hc2 & Hlog).
           rewrite !count_app, Hm, Hf, Hc1, Hc2. repeat split; try done.
           apply elem_of_app. by right.
Qed.

Lemma build_body_cases video meta when :
  (∃ body, build_body video meta when = Ok body) ∨
  build_body video meta when = Raise OverflowError.
Proof.
  unfold build_body, iso, astimezone_utc. destruct when as [d|]; simpl; [|eauto].
  destruct (in_range _); simpl; eauto.
Qed.

Lemma settles_exception_only folder when :
  settles folder → exception_only (process_folder folder when w0).1.
Proof.
  intros (Hmeta & (pre & c & rest & Hchunks & Hpre & Hend) & Hmove).
  rewrite process_folder_run. unfold find_video_meta.
  destruct (folder_videos folder) as [|video _]; [done|].
  destruct (folder_meta folder) as [[meta|e|]|]; simpl; try done.
  destruct (build_body_cases video meta when) as [[body Hbody] | Hover].
  - rewrite (upload_run _ _ _ _ _ _ Hbody). simpl.
    destruct (chunk_loop_in_progress pre 0%Q Hpre) as (last & t & Hrun & _).
    rewrite session_run, Hchunks, Hrun. cbn [fst snd].
    destruct c as [status resp|e].
    + destruct Hend as [r ->]. rewrite chunk_loop_Returns. cbv zeta. cbn [fst snd].
      by destruct (move_result folder) as [[]| |].
    + by rewrite chunk_loop_Raises.
  - unfold upload, mbind, M_bind, lift. by rewrite Hover.
Qed.

Lemma main_loop_events items :
  Forall (λ it, exception_only (process_folder it.1 it.2 w0).1) items →
  events (main_loop items w0).2
  = concat (map (λ it, events (iteration it.1 it.2).2) items).
Proof.
  induction 1 as [|[folder when] items Hex _ IH]; [done|].
  simpl in Hex. destruct (iteration_facts _ _ Hex) as (Hok & _).
  rewrite (main_loop_cons _ _ _ Hok). simpl. by rewrite IH.
Qed.

(** C7: in a batch whose folders' surroundings let every iteration come to
    an end (no call blocks for ever, nothing but instances of [Exception] is
    raised), the loop of [main] runs to its end and its trace is the traces
    of the iterations one after the other, one per folder, in order: no
    failure stops the batch. In the trace of a folder's iteration the
    archiver ([shutil.move]) runs exactly once when the upload is DONE and
    never when it FAILED, in which case the error is logged against the
    folder. When the folders have distinct names the same counts hold in the
    trace of the whole batch. *)
Theorem archive_once_per_done (items : list (job * option datetime)) :
  Forall (λ it, settles it.1) items →
  (main_loop items w0).1 = Ok tt ∧
  events (main_loop items w0).2
    = concat (map (λ it, events (iteration it.1 it.2).2) items) ∧
  omap is_find (events (main_loop items w0).2) = batch_names items ∧
  (∀ folder when, (folder, when) ∈ items →
     (upload_result folder when = Ok tt →
        count (is_move (folder_name folder)) (events (iteration folder when).2) = 1%nat) ∧
     (∀ e, upload_result folder when = Raise e →
        count (is_move (folder_name folder)) (events (iteration folder when).2) = 0%nat ∧
        count (is_failure (folder_name folder)) (events (iteration folder when).2) = 1%nat ∧
        Ev_log_failure (folder_name folder) e ∈ events (iteration folder when).2)) ∧
  (NoDup (batch_names items) →
   ∀ folder when, (folder, when) ∈ items →
     (upload_result folder when = Ok tt →
        count (is_move (folder_name folder)) (events (main_loop items w0).2) = 1%nat) ∧
     (∀ e, upload_result folder when = Raise e →
        count (is_move (folder_name folder)) (events (main_loop items w0).2) = 0%nat ∧
        count (is_failure (folder_name folder)) (events (main_loop items w0).2) = 1%nat ∧
        Ev_log_failure (folder_name folder) e ∈ events (main_loop items w0).2)).
Proof.
  intros Hsettle.
  assert (Hex : Forall (λ it, exception_only (process_folder it.1 it.2 w0).1) items).
  { eapply Forall_impl; [exact Hsettle|]. intros [folder when]. simpl.
    apply settles_exception_only. }
  destruct (main_loop_batch items Hex) as (Hok & Hfind & _ & Hin).
  split; [done|]. split; [by apply main_loop_events|]. split; [done|]. split.
  - intros folder when Hitem.
    rewrite Forall_forall in Hex. specialize (Hex _ Hitem). simpl in Hex.
    by destruct (iteration_facts _ _ Hex) as (_ & _ & Hhere & _).
  - intros Hnodup folder when Hitem. exact (Hin Hnodup folder when Hitem).
Qed.

Lemma scenario_failing_settles : settles scenario_failing.
Proof.
  split; [exact I|]. split; [|exact I].
  exists [Returns (Some (1 # 10)%Q) None], (Raises (HttpError "quotaExceeded")),
    [Returns None (Some (mk_response "never"))].
  split; [reflexivity|]. split; [|reflexivity].
  apply Forall_singleton. by exists (Some (1 # 10)%Q).
Defined.

Lemma scenario_passing_settles : settles scenario_passing.
Proof.
  split; [exact I|]. split; [|exact I].
  exists [Returns (Some (1 # 2)%Q) None], (Returns None (Some (mk_response "dQw4"))), [].
  split; [reflexivity|]. split; [|by eexists].
  apply Forall_singleton. by exists (Some (1 # 2)%Q).
Defined.

Lemma archive_once_per_done_witness :
  Forall (λ it, settles it.1) scenario_batch ∧
  (main_loop scenario_batch w0).1 = Ok tt.
Proof.
  assert (H : Forall (λ it, settles it.1) scenario_batch).
  { apply Forall_cons. split; [exact scenario_failing_settles|].
    apply Forall_singleton. exact scenario_passing_settles. }
  split; [exact H|].
  exact (proj1 (archive_once_per_done scenario_batch H)).
Defined.

Example scenario_batch_trace :
  omap (λ ev, match ev with
              | Ev_find_video_meta f | Ev_move f | Ev_log_archived f
              | Ev_log_failure f _ => Some (ev, f)
              | _ => None
              end) (events (main_loop scenario_batch w0).2)
  = [(Ev_find_video_meta "f1", "f1");
     (Ev_log_failure "f1" (HttpError "quotaExceeded"), "f1");
     (Ev_find_video_meta "f2", "f2"); (Ev_move "f2", "f2");
     (Ev_log_archived "f2", "f2")].
Proof. reflexivity. Qed.

(** ** A chunk call that raises *)

Lemma session_fails pre e :
  Forall in_progress pre →
  ∃ t, count is_next_chunk t = S (length pre) ∧
    Forall (λ ev, of_upload ev = true) t ∧
    ∀ rest,
      session (pre ++ Raises e :: rest)
      = (Raise e,
         mk_world (t ++ if is_HttpError e then [Ev_log_api_error e] else []) []).
Proof.
  intros Hpre.
  destruct (chunk_loop_in_progress pre 0%Q Hpre) as (last & t & Hrun & Hcount).
  exists (t ++ [Ev_next_chunk]). split; [|split].
  - rewrite count_app, Hcount. unfold count. simpl. lia.
  - pose proof (chunk_loop_of_upload (pre ++ [Raises e]) 0%Q) as Hkind.
    by rewrite Hrun in Hkind.
  - intros rest. rewrite session_run, Hrun. by rewrite chunk_loop_Raises.
Qed.

Lemma chunk_loop_no_insert script : ∀ last_shown,
  count is_insert (events (chunk_loop script last_shown w0).2) = 0%nat.
Proof.
  induction script as [|[status resp|e] script IH]; intros last_shown; [done| |done].
  rewrite chunk_loop_Returns. cbv zeta.
  destruct resp as [r|]; simpl.
  - by destruct (match status with Some _ => _ | None => _ end).
  - change (Ev_next_chunk :: ?l) with ([Ev_next_chunk] ++ l).
    rewrite !count_app, IH.
    by destruct (match status with Some _ => _ | None => _ end).
Qed.

Lemma session_no_insert script :
  count is_insert (events (session script).2) = 0%nat.
Proof.
  rewrite session_run. simpl. rewrite count_app, chunk_loop_no_insert.
  destruct (chunk_loop script 0%Q w0).1 as [r|e|]; try done.
  by destruct (is_HttpError e).
Qed.

(** C6: when a chunk call raises, the calls before it having returned
    without the final item, the upload ends FAILED with that error after
    exactly that many calls of [next_chunk] and a single [insert]; what the
    remote would have answered to further calls plays no part. The loop of
    [main] then logs the failure against the folder and goes on with the
    folders that remain: the failed one is not uploaded again. *)
Theorem chunk_error_is_fatal (folder : job) (when : option datetime)
    (video : video_file) (meta : metadata) (body : request_body)
    (pre rest : list chunk_result) (e : exn)
    (items : list (job * option datetime)) :
  find_video_meta folder = Ok (video, meta) →
  build_body video meta when = Ok body →
  chunks folder = pre ++ Raises e :: rest →
  Forall in_progress pre →
  is_Exception e = true →
  (upload video meta when (chunks folder) w0).1 = Raise e ∧
  count is_next_chunk (events (upload video meta when (chunks folder) w0).2)
    = S (length pre) ∧
  count is_insert (events (upload video meta when (chunks folder) w0).2) = 1%nat ∧
  (∀ rest', upload video meta when (pre ++ Raises e :: rest') w0
            = upload video meta when (chunks folder) w0) ∧
  main_loop ((folder, when) :: items) w0 =
    ((main_loop items w0).1,
     extend
       (mk_world
          ([Ev_find_video_meta (folder_name folder);
            Ev_log_upload (folder_name folder) when]
           ++ events (upload video meta when (chunks folder) w0).2
           ++ [Ev_log_failure (folder_name folder) e])
          (held (upload video meta when (chunks folder) w0).2))
       (main_loop items w0).2).
Proof.
  intros Hfind Hbody Hchunks Hpre Hexc.
  destruct (session_fails pre e Hpre) as (t & Hcount & Hkind & Hsess).
  pose proof (session_no_insert (pre ++ Raises e :: rest)) as Hins.
  rewrite Hsess in Hins. simpl in Hins. rewrite count_app in Hins.
  assert (Hlog : count is_next_chunk
            (if is_HttpError e then [Ev_log_api_error e] else []) = 0%nat)
    by (by destruct (is_HttpError e)).
  assert (Hrun : ∀ rest', upload video meta when (pre ++ Raises e :: rest') w0
    = (Raise e,
       mk_world ([Ev_MediaFileUpload (video_path video); Ev_insert body]
                 ++ (t ++ if is_HttpError e then [Ev_log_api_error e] else []) ++ [])
                [video_path video])).
  { intros rest'. by rewrite (upload_run _ _ _ _ _ _ Hbody), Hsess. }
  rewrite Hchunks, (Hrun rest). cbn [fst snd events held].
  split; [done|]. split; [|split; [|split]].
  - rewrite !count_app, Hcount, Hlog. unfold count. simpl. lia.
  - rewrite !count_app. unfold count in *. simpl. lia.
  - intros rest'. apply Hrun.
  - assert (Hit : iteration folder when
      = (Ok tt,
         mk_world
           ([Ev_find_video_meta (folder_name folder);
             Ev_log_upload (folder_name folder) when]
            ++ ([Ev_MediaFileUpload (video_path video); Ev_insert body]
                ++ (t ++ if is_HttpError e then [Ev_log_api_error e] else []) ++ [])
            ++ [Ev_log_failure (folder_name folder) e])
           [video_path video])).
    { rewrite iteration_run, process_folder_run, Hfind. cbv zeta.
      rewrite Hchunks, (Hrun rest). cbn [fst snd events held]. rewrite Hexc.
      by rewrite <- !app_assoc. }
    rewrite main_loop_cons by (by rewrite Hit). by rewrite Hit.
Qed.

Lemma chunk_error_is_fatal_witness :
  ∃ body,
    build_body scenario_video scenario_meta None = Ok body ∧
    find_video_meta scenario_failing = Ok (scenario_video, scenario_meta) ∧
    chunks scenario_failing
      = [Returns (Some (1 # 10)%Q) None] ++ Raises (HttpError "quotaExceeded")
          :: [Returns None (Some (mk_response "never"))] ∧
    Forall in_progress [Returns (Some (1 # 10)%Q) None] ∧
    is_Exception (HttpError "quotaExceeded") = true ∧
    (upload scenario_video scenario_meta None (chunks scenario_failing) w0).1
      = Raise (HttpError "quotaExceeded").
Proof.
  assert (Hpre : Forall in_progress [Returns (Some (1 # 10)%Q) None])
    by (repeat constructor; by exists (Some (1 # 10)%Q)).
  eexists. split; [reflexivity|]. split; [reflexivity|]. split; [reflexivity|].
  split; [exact Hpre|]. split; [reflexivity|].
  exact (proj1 (chunk_error_is_fatal scenario_failing None scenario_video
                  scenario_meta _ [Returns (Some (1 # 10)%Q) None]
                  [Returns None (Some (mk_response "never"))]
                  (HttpError "quotaExceeded") [] eq_refl eq_refl eq_refl Hpre eq_refl)).
Defined.

(** ** The media handle *)

Lemma session_held script : held (session script).2 = [].
Proof. by rewrite session_run. Qed.

(** C9, as the code behaves: when an upload whose request was built ends
    FAILED, whichever chunk call raised, [upload] has released nothing: the
    handle [MediaFileUpload] opened is still held when the error reaches the
    caller, and [upload] recorded nothing after the failing call but the log
    line of an [HttpError]. No statement of the program closes the handle;
    that is left to the runtime. *)
Theorem failed_upload_keeps_handle (video : video_file) (meta : metadata)
    (when : option datetime) (body : request_body)
    (script : list chunk_result) (e : exn) (w : world) :
  build_body video meta when = Ok body →
  (upload video meta when script w).1 = Raise e →
  held (upload video meta when script w).2 = held w ++ [video_path video].
Proof.
  intros Hbody Hfail. rewrite (upload_run _ _ _ _ _ _ Hbody). simpl.
  by rewrite session_held.
Qed.

Lemma failed_upload_keeps_handle_witness :
  ∃ body,
    build_body scenario_video scenario_meta None = Ok body ∧
    (upload scenario_video scenario_meta None (chunks scenario_failing) w0).1
      = Raise (HttpError "quotaExceeded") ∧
    held (upload scenario_video scenario_meta None (chunks scenario_failing) w0).2
      = held w0 ++ [video_path scenario_video].
Proof.
  eexists. split; [reflexivity|]. split; [reflexivity|].
  exact (failed_upload_keeps_handle scenario_video scenario_meta None _
           (chunks scenario_failing) (HttpError "quotaExceeded") w0 eq_refl eq_refl).
Defined.

(** C9 as stated fails: after an upload that raised on its first chunk call
    a handle is still held. *)
Lemma failed_upload_releases_counterexample :
  (upload scenario_video scenario_meta None [Raises (HttpError "quotaExceeded")] w0).1
    = Raise (HttpError "quotaExceeded") ∧
  held (upload scenario_video scenario_meta None
          [Raises (HttpError "quotaExceeded")] w0).2 ≠ [].
Proof. split; [reflexivity|]. vm_compute. discriminate. Qed.

(** ** choose_folders *)

(** What the scan builds: the numbers in [valid], and on the lines shown,
    are the positions (from [i]) of the complete folders among [dirs]. *)
Lemma scan_loop_spec dirs : ∀ i valid printed valid' printed',
  (∀ s d, valid !! s = Some d → ∃ j, (j < i)%nat ∧ s = pretty j) →
  (∀ s name, (s, name) ∈ printed ↔ ∃ d, valid !! s = Some d ∧ folder_name d = name) →
  scan_loop i dirs valid printed = Ok (valid', printed') →
  (∀ s d, valid' !! s = Some d ↔
     valid !! s = Some d ∨
     ∃ k, s = pretty (i + k)%nat ∧ dirs !! k = Some d ∧ is_complete d = true) ∧
  (∀ s name, (s, name) ∈ printed' ↔
     ∃ d, valid' !! s = Some d ∧ folder_name d = name).
Proof.
  induction dirs as [|d dirs IH]; intros i valid printed valid' printed' Hkeys Hprinted.
  - simpl. intros [= <- <-]. split; [|done]. intros s d. split; [by left|].
    intros [H | (k & _ & Hk & _)]; [done|]. by rewrite lookup_nil in Hk.
  - assert (Hfresh : valid !! pretty i = None).
    { destruct (valid !! pretty i) as [d'|] eqn:Hd; [|done].
      destruct (Hkeys _ _ Hd) as (j & Hj & Heq).
      apply (inj pretty) in Heq. lia. }
    simpl. unfold is_complete.
    destruct (find_video_meta d) as [vm|e|] eqn:Hfind; [| |done].
    + intros Hscan. apply IH in Hscan as [Hvalid Hshown].
      * split; [|done]. intros s x. rewrite Hvalid. split.
        -- intros [Hins | (k & -> & Hk & Hc)].
           ++ apply lookup_insert_Some in Hins as [[<- <-] | [Hne Hold]]; [|by left].
              right. exists 0%nat. rewrite Nat.add_0_r. simpl.
              unfold is_complete. by rewrite Hfind.
           ++ right. exists (S k). split; [f_equal; lia|]. by simpl.
        -- intros [Hold | (k & -> & Hk & Hc)].
           ++ left. apply lookup_insert_Some. right. split; [|done].
              intros <-. congruence.
           ++ destruct k as [|k]; simpl in Hk.
              ** injection Hk as <-. left. rewrite Nat.add_0_r.
                 by rewrite lookup_insert_eq.
              ** right. exists k. split; [f_equal; lia|done].
      * intros s x Hins.
        apply lookup_insert_Some in Hins as [[<- <-] | [Hne Hold]].
        -- exists i. split; [lia|done].
        -- destruct (Hkeys _ _ Hold) as (j & Hj & ->). exists j. split; [lia|done].
      * intros s name. rewrite elem_of_app, list_elem_of_singleton, Hprinted. split.
        -- intros [(x & Hx & Hname) | [= -> ->]].
           ++ exists x. split; [|done]. apply lookup_insert_Some. right.
              split; [|done]. intros <-. congruence.
           ++ exists d. by rewrite lookup_insert_eq.
        -- intros (x & Hins & Hname).
           apply lookup_insert_Some in Hins as [[<- <-] | [Hne Hold]].
           ++ right. by rewrite Hname.
           ++ left. eauto.
    + destruct e; try done.
      intros Hscan. apply IH in Hscan as [Hvalid Hshown].
      * split; [|done]. intros s x. rewrite Hvalid. split.
        -- intros [Hold | (k & -> & Hk & Hc)]; [by left|].
           right. exists (S k). split; [f_equal; lia|]. by simpl.
        -- intros [Hold | (k & -> & Hk & Hc)]; [by left|].
           destruct k as [|k]; simpl in Hk.
           ++ injection Hk as <-. unfold is_complete in Hc. by rewrite Hfind in Hc.
           ++ right. exists k. split; [f_equal; lia|done].
      * intros s x Hold. destruct (Hkeys _ _ Hold) as (j & Hj & ->).
        exists j. split; [lia|done].
      * done.
Qed.

Lemma scan_spec dirs valid printed :
  scan dirs = Ok (valid, printed) →
  (∀ s d, valid !! s = Some d ↔
     ∃ k, s = pretty (S k) ∧ dirs !! k = Some d ∧ is_complete d = true) ∧
  (∀ s name, (s, name) ∈ printed ↔
     ∃ d, valid !! s = Some d ∧ folder_name d = name).
Proof.
  intros Hscan. apply scan_loop_spec in Hscan as [Hvalid Hshown].
  - split; [|done]. intros s d. rewrite Hvalid, lookup_empty. split.
    + intros [? | H]; [done|exact H].
    + intros H. right. exact H.
  - intros s d. by rewrite lookup_empty.
  - intros s name. split; [by intros ?%elem_of_nil|].
    intros (d & Hd & _). by rewrite lookup_empty in Hd.
Qed.

Lemma scan_printed_nonempty dirs valid printed :
  scan dirs = Ok (valid, printed) → size valid = 0%nat ↔ printed = [].
Proof.
  intros [_ Hshown]%scan_spec. rewrite map_size_empty_iff. split.
  - intros ->. destruct printed as [|[s name] printed]; [done|].
    destruct (proj1 (Hshown s name)) as (d & Hd & _); [by left|].
    by rewrite lookup_empty in Hd.
  - intros ->. apply map_empty. intros s.
    destruct (valid !! s) as [d|] eqn:Hd; [|done].
    assert (Hin : (s, folder_name d) ∈ @nil (string * string))
      by (apply Hshown; eauto).
    by apply elem_of_nil in Hin.
Qed.

Lemma existsb_not_in_valid valid sel :
  existsb (not_in_valid valid) sel = false ↔ Forall (λ s, is_Some (valid !! s)) sel.
Proof.
  induction sel as [|s sel IH]; simpl; [done|].
  rewrite orb_false_iff, IH, Forall_cons. unfold not_in_valid.
  destruct (valid !! s) as [d|]; split; intros [H1 H2];
    first [done | by split; [eexists|] | by destruct H1].
Qed.

Lemma omap_lookup_all (valid : gmap string job) sel :
  Forall (λ s, is_Some (valid !! s)) sel →
  Forall2 (λ s d, valid !! s = Some d) sel (omap (λ s, valid !! s) sel).
Proof.
  induction 1 as [|s sel [d Hd] _ IH]; simpl; [done|].
  rewrite Hd. by constructor.
Qed.

(** [choose_folders] once the scan is over. *)
Lemma choose_folders_scanned dirs parts valid printed :
  scan dirs = Ok (valid, printed) →
  choose_folders dirs parts =
    if decide (size valid = 0%nat)
    then Raise (SystemExit "Aucun dossier complet trouvé (vidéo + metadata.json).")
    else if bool_decide (selection parts = []) || (6 <? length (selection parts))%nat
            || existsb (not_in_valid valid) (selection parts)
         then Raise (SystemExit "Sélection invalide.")
         else Ok (omap (λ s, valid !! s) (selection parts)).
Proof. unfold choose_folders. by intros ->. Qed.

Lemma choose_folders_Ok dirs parts folders :
  choose_folders dirs parts = Ok folders →
  ∃ valid printed,
    scan dirs = Ok (valid, printed) ∧
    selection parts ≠ [] ∧ (length (selection parts) ≤ 6)%nat ∧
    Forall (λ s, is_Some (valid !! s)) (selection parts) ∧
    folders = omap (λ s, valid !! s) (selection parts).
Proof.
  intros Hchoose.
  destruct (scan dirs) as [[valid printed]|e|] eqn:Hscan;
    [|by unfold choose_folders in Hchoose; rewrite Hscan in Hchoose..].
  rewrite (choose_folders_scanned _ _ _ _ Hscan) in Hchoose.
  destruct (decide (size valid = 0%nat)); [done|].
  destruct (bool_decide (selection parts = [])) eqn:Hnil; [done|].
  destruct (6 <? length (selection parts))%nat eqn:Hlen; [done|].
  destruct (existsb (not_in_valid valid) (selection parts)) eqn:Hall; [done|].
  simpl in Hchoose. injection Hchoose as <-.
  exists valid, printed. split; [done|].
  split; [by apply bool_decide_eq_false in Hnil|].
  split; [by apply Nat.ltb_ge in Hlen|].
  split; [by apply existsb_not_in_valid|done].
Qed.

(** X1: what [choose_folders] returns. Between one and six folders, one per
    non-empty piece of the answer and in the order of the answer; each piece
    is the number, counted from 1 over all scanned directories, of the
    folder returned for it, and that folder is complete. *)
Theorem choose_folders_returns_selection (dirs : list job) (parts : list string)
    (folders : list job) :
  choose_folders dirs parts = Ok folders →
  (1 ≤ length folders ≤ 6)%nat ∧
  Forall2 (λ s d, ∃ k, s = pretty (S k) ∧ dirs !! k = Some d ∧ is_complete d = true)
    (selection parts) folders.
Proof.
  intros (valid & printed & Hscan & Hnil & Hlen & Hall & ->)%choose_folders_Ok.
  apply scan_spec in Hscan as [Hvalid _].
  pose proof (omap_lookup_all valid _ Hall) as Hsel.
  split.
  - rewrite <- (Forall2_length _ _ _ Hsel).
    destruct (selection parts); [done|]. simpl in *. lia.
  - eapply Forall2_impl; [exact Hsel|]. intros s d Hd. by apply Hvalid.
Qed.

Lemma choose_folders_returns_selection_witness :
  choose_folders scenario_dirs ["2"; ""; "3"] = Ok [scenario_failing; scenario_passing] ∧
  (1 ≤ length [scenario_failing; scenario_passing] ≤ 6)%nat.
Proof.
  assert (H : choose_folders scenario_dirs ["2"; ""; "3"]
              = Ok [scenario_failing; scenario_passing]) by reflexivity.
  split; [exact H|].
  exact (proj1 (choose_folders_returns_selection _ _ _ H)).
Defined.

(** X2: the numbers shown are the ones accepted. Every line shown carries
    the position, counted from 1 over all scanned directories, of a complete
    folder, and its name; incomplete folders keep their number but are not
    shown. An answer is accepted exactly when it has between one and six
    non-empty pieces, each a number shown; any other answer ends the program
    with "Sélection invalide.". *)
Theorem choose_folders_accepts_shown (dirs : list job) (parts : list string)
    (valid : gmap string job) (printed : list (string * string)) :
  scan dirs = Ok (valid, printed) →
  printed ≠ [] →
  (∀ s name, (s, name) ∈ printed ↔
     ∃ k d, s = pretty (S k) ∧ dirs !! k = Some d ∧ is_complete d = true ∧
            name = folder_name d) ∧
  ((∃ folders, choose_folders dirs parts = Ok folders) ↔
     selection parts ≠ [] ∧ (length (selection parts) ≤ 6)%nat ∧
     ∀ s, s ∈ selection parts → ∃ name, (s, name) ∈ printed) ∧
  ((∃ folders, choose_folders dirs parts = Ok folders) ∨
   choose_folders dirs parts = Raise (SystemExit "Sélection invalide.")).
Proof.
  intros Hscan Hshown.
  pose proof (scan_spec _ _ _ Hscan) as [Hvalid Hprinted].
  assert (Hsize : size valid ≠ 0%nat)
    by (by rewrite (scan_printed_nonempty _ _ _ Hscan)).
  assert (Hkey : ∀ s, is_Some (valid !! s) ↔ ∃ name, (s, name) ∈ printed).
  { intros s. split.
    - intros [d Hd]. exists (folder_name d). apply Hprinted. eauto.
    - intros (name & (d & Hd & _)%Hprinted). eauto. }
  rewrite (choose_folders_scanned _ _ _ _ Hscan).
  destruct (decide (size valid = 0%nat)); [done|].
  split; [|split].
  - intros s name. rewrite Hprinted. split.
    + intros (d & (k & -> & Hk & Hc)%Hvalid & <-). eauto 10.
    + intros (k & d & -> & Hk & Hc & ->). exists d. split; [|done]. apply Hvalid. eauto.
  - destruct (bool_decide (selection parts = [])) eqn:Hnil; simpl.
    { apply bool_decide_eq_true in Hnil. split; [by intros [? ?]|]. by intros [? _]. }
    apply bool_decide_eq_false in Hnil.
    destruct (6 <? length (selection parts))%nat eqn:Hlen; simpl.
    { apply Nat.ltb_lt in Hlen. split; [by intros [? ?]|]. intros (_ & ? & _). lia. }
    apply Nat.ltb_ge in Hlen.
    destruct (existsb (not_in_valid valid) (selection parts)) eqn:Hall.
    + split; [by intros [? ?]|]. intros (_ & _ & Hin).
      assert (Hno : existsb (not_in_valid valid) (selection parts) = false).
      { apply existsb_not_in_valid, Forall_forall. intros s Hs. apply Hkey. eauto. }
      congruence.
    + apply existsb_not_in_valid in Hall. split; [|eauto].
      intros _. split; [done|]. split; [done|].
      intros s Hs. apply Hkey. by apply (proj1 (Forall_forall _ _) Hall).
  - destruct (_ || _); eauto.
Qed.

Lemma choose_folders_accepts_shown_witness :
  ∃ valid,
    scan scenario_dirs = Ok (valid, [("2", "f1"); ("3", "f2")]) ∧
    [("2", "f1"); ("3", "f2")] ≠ @nil (string * string) ∧
    ((∃ folders, choose_folders scenario_dirs ["1"] = Ok folders) ∨
     choose_folders scenario_dirs ["1"] = Raise (SystemExit "Sélection invalide.")).
Proof.
  eexists.
  assert (H1 : [("2", "f1"); ("3", "f2")] ≠ @nil (string * string)) by discriminate.
  split; [reflexivity|]. split; [exact H1|].
  exact (proj2 (proj2 (choose_folders_accepts_shown scenario_dirs ["1"] _ _ eq_refl H1))).
Defined.

Lemma scan_loop_total dirs : ∀ i valid printed,
  Forall (λ d, is_complete d || is_skipped d = true) dirs →
  ∃ valid' printed', scan_loop i dirs valid printed = Ok (valid', printed').
Proof.
  induction dirs as [|d dirs IH]; intros i valid printed Hdirs; simpl; [eauto|].
  apply Forall_cons in Hdirs as [Hd Hdirs]. unfold is_complete, is_skipped in Hd.
  destruct (find_video_meta d) as [vm|e|]; [by apply IH| |done].
  destruct e; try done. by apply IH.
Qed.

Lemma scan_loop_all_skipped dirs : ∀ i valid printed,
  Forall (λ d, is_skipped d = true) dirs →
  scan_loop i dirs valid printed = Ok (valid, printed).
Proof.
  induction dirs as [|d dirs IH]; intros i valid printed Hdirs; simpl; [done|].
  apply Forall_cons in Hdirs as [Hd Hdirs]. unfold is_skipped in Hd.
  destruct (find_video_meta d) as [vm|e|]; try done.
  destruct e; try done. by apply IH.
Qed.

(** X3: when the scan raises nothing but [FileNotFoundError], the program
    ends with "Aucun dossier complet trouvé" exactly when no scanned
    directory is complete (none at all included), whatever the answer
    would be. *)
Theorem choose_folders_none_complete (dirs : list job) (parts : list string) :
  Forall (λ d, is_complete d || is_skipped d = true) dirs →
  choose_folders dirs parts
    = Raise (SystemExit "Aucun dossier complet trouvé (vidéo + metadata.json).")
  ↔ Forall (λ d, is_skipped d = true) dirs.
Proof.
  intros Hdirs. split.
  - intros Hexit.
    destruct (scan_loop_total dirs 1 ∅ [] Hdirs) as (valid & printed & Hscan).
    fold (scan dirs) in Hscan.
    rewrite (choose_folders_scanned _ _ _ _ Hscan) in Hexit.
    destruct (decide (size valid = 0%nat)) as [Hsize|Hsize];
      [|by destruct (_ || _)].
    apply map_size_empty_iff in Hsize as ->.
    apply scan_spec in Hscan as [Hvalid _].
    apply Forall_forall. intros d Hd.
    apply (proj1 (Forall_forall _ _) Hdirs) in Hd as Hcase.
    apply list_elem_of_lookup in Hd as [k Hk].
    destruct (is_complete d) eqn:Hc; [|done].
    assert (Hin : (∅ : gmap string job) !! pretty (S k) = Some d)
      by (apply Hvalid; eauto).
    by rewrite lookup_empty in Hin.
  - intros Hskip. unfold choose_folders, scan.
    by rewrite (scan_loop_all_skipped _ _ _ _ Hskip).
Qed.

Lemma choose_folders_none_complete_witness :
  Forall (λ d, is_complete d || is_skipped d = true) [scenario_empty_dir] ∧
  (choose_folders [scenario_empty_dir] ["1"]
     = Raise (SystemExit "Aucun dossier complet trouvé (vidéo + metadata.json).")
   ↔ Forall (λ d, is_skipped d = true) [scenario_empty_dir]).
Proof.
  assert (H : Forall (λ d, is_complete d || is_skipped d = true) [scenario_empty_dir])
    by (apply Forall_singleton; reflexivity).
  split; [exact H|]. exact (choose_folders_none_complete _ ["1"] H).
Defined.

(** X4: an error of the scan other than [FileNotFoundError] (a
    [metadata.json] that does not parse) is not skipped: it ends
    [choose_folders] with that error, whatever the directories after it and
    the answer would be. *)
Theorem choose_folders_scan_error (pre rest : list job) (d : job) (e : exn)
    (parts : list string) :
  Forall (λ d, is_complete d || is_skipped d = true) pre →
  find_video_meta d = Raise e →
  (∀ msg, e ≠ FileNotFoundError msg) →
  choose_folders (pre ++ d :: rest) parts = Raise e.
Proof.
  intros Hpre Hfind Hne.
  assert (Hloop : ∀ i valid printed,
    scan_loop i (pre ++ d :: rest) valid printed = Raise e).
  { induction pre as [|p pre IH]; intros i valid printed; simpl.
    - rewrite Hfind. destruct e; try done. by destruct (Hne msg).
    - apply Forall_cons in Hpre as [Hp Hpre]. unfold is_complete, is_skipped in Hp.
      destruct (find_video_meta p) as [vm|e'|]; [by apply IH| |done].
      destruct e'; try done. by apply IH. }
  unfold choose_folders, scan. by rewrite Hloop.
Qed.

Lemma choose_folders_scan_error_witness :
  Forall (λ d, is_complete d || is_skipped d = true) [scenario_empty_dir] ∧
  find_video_meta scenario_bad_json = Raise (ValueError "Expecting value") ∧
  choose_folders ([scenario_empty_dir] ++ scenario_bad_json :: [scenario_passing]) ["3"]
    = Raise (ValueError "Expecting value").
Proof.
  assert (H : Forall (λ d, is_complete d || is_skipped d = true) [scenario_empty_dir])
    by (apply Forall_singleton; reflexivity).
  split; [exact H|]. split; [reflexivity|].
  apply (choose_folders_scan_error [scenario_empty_dir] [scenario_passing]
           scenario_bad_json (ValueError "Expecting value") ["3"] H eq_refl).
  intros msg. discriminate.
Defined.

(** X5: the selection is not deduplicated: an accepted answer of at most
    three numbers, given twice over, is accepted too and returns every
    folder twice. *)
Theorem choose_folders_keeps_duplicates (dirs : list job) (parts : list string)
    (folders : list job) :
  choose_folders dirs parts = Ok folders →
  (length (selection parts) ≤ 3)%nat →
  choose_folders dirs (parts ++ parts) = Ok (folders ++ folders).
Proof.
  intros (valid & printed & Hscan & Hnil & _ & Hall & ->)%choose_folders_Ok Hlen.
  assert (Hsize : size valid ≠ 0%nat).
  { destruct (selection parts) as [|s sel]; [done|].
    apply Forall_cons in Hall as [[d Hd] _]. intros ->%map_size_empty_iff.
    by rewrite lookup_empty in Hd. }
  rewrite (choose_folders_scanned _ _ _ _ Hscan).
  destruct (decide (size valid = 0%nat)); [done|].
  unfold selection in *. rewrite filter_app, omap_app.
  rewrite bool_decide_eq_false_2
    by (intros [? _]%app_eq_nil; done).
  rewrite (proj2 (Nat.ltb_ge _ _)) by (rewrite length_app; lia).
  rewrite (proj2 (existsb_not_in_valid _ _)) by (by apply Forall_app).
  done.
Qed.

Lemma choose_folders_keeps_duplicates_witness :
  choose_folders scenario_dirs ["2"] = Ok [scenario_failing] ∧
  (length (selection ["2"]) ≤ 3)%nat ∧
  choose_folders scenario_dirs (["2"] ++ ["2"]) = Ok ([scenario_failing] ++ [scenario_failing]).
Proof.
  assert (H1 : choose_folders scenario_dirs ["2"] = Ok [scenario_failing]) by reflexivity.
  assert (H2 : (length (selection ["2"]) ≤ 3)%nat) by (vm_compute; lia).
  split; [exact H1|]. split; [exact H2|].
  exact (choose_folders_keeps_duplicates _ _ _ H1 H2).
Defined.

(** ** More on planner *)

Lemma planner_invalid_choice strptime_ymd paris_utcoffset n now choice answers :
  choice ∉ ["1"; "2"; "3"; "4"] →
  planner strptime_ymd paris_utcoffset n now choice answers
    = Raise (SystemExit "Choix invalide").
Proof. intros Hno. unfold planner. by rewrite bool_decide_eq_false_2. Qed.

(** X6: the planner's answer has the size of the batch. Whenever it returns
    a plan, the plan has exactly [n] entries, so that [zip] in [main] pairs
    every folder with one; in mode "3" it always returns, [n] immediate
    markers whatever [now] and the console hold, and in the other modes no
    entry is the immediate marker. A choice outside "1".."4" ends the
    program. *)
Theorem planner_one_entry_per_item strptime_ymd paris_utcoffset
    (n : nat) (now : datetime) (choice : string) (answers : list string) :
  (∀ plan, planner strptime_ymd paris_utcoffset n now choice answers = Ok plan →
     length plan = n ∧
     (choice = "3" → plan = replicate n None) ∧
     (choice ≠ "3" → Forall is_Some plan)) ∧
  planner strptime_ymd paris_utcoffset n now "3" answers = Ok (replicate n None) ∧
  (choice ∉ ["1"; "2"; "3"; "4"] →
   planner strptime_ymd paris_utcoffset n now choice answers
     = Raise (SystemExit "Choix invalide")).
Proof.
  split; [|split; [done|apply planner_invalid_choice]].
  intros plan Hplan.
  destruct (decide (choice ∈ ["1"; "2"; "3"; "4"])) as [Hin|Hout];
    [|by rewrite planner_invalid_choice in Hplan].
  apply elem_of_cons in Hin as [-> | Hin];
    [| apply elem_of_cons in Hin as [-> | Hin];
       [| apply elem_of_cons in Hin as [-> | Hin];
          [| apply list_elem_of_singleton in Hin as ->]]].
  - apply planner_daily_Ok in Hplan as ->.
    split; [by rewrite length_map, length_seq|]. split; [done|]. intros _.
    apply Forall_fmap, Forall_forall. intros i _. by eexists.
  - apply planner_three_days_Ok in Hplan as ->.
    split; [by rewrite length_map, length_seq|]. split; [done|]. intros _.
    apply Forall_fmap, Forall_forall. intros i _. by eexists.
  - injection Hplan as <-. split; [by rewrite length_replicate|]. by split.
  - apply planner_manual_Ok in Hplan as [Hlen Hat].
    split; [done|]. split; [done|]. intros _.
    apply Forall_lookup. intros i e He.
    pose proof (lookup_lt_Some _ _ _ He) as Hi. rewrite Hlen in Hi.
    destruct (Hat i Hi) as (ds & w & _ & _ & Hnew). rewrite Hnew in He.
    injection He as <-. by eexists.
Qed.

Lemma tomorrow_is_late_enough now k :
  1 ≤ k →
  instant now + MIN_MARGIN < instant (shift (base_today now) (timedelta k 0)).
Proof.
  intros Hk. unfold instant, shift, base_today, replace_hms, MIN_MARGIN, timedelta,
    MIN_MARGIN_MIN, UPLOAD_HOUR, US_PER_DAY, US_PER_HOUR, US_PER_MINUTE, US_PER_SECOND.
  simpl. Z.to_euclidean_division_equations. lia.
Qed.

Lemma clamp_from_tomorrow now k :
  1 ≤ k →
  clamp now (shift (base_today now) (timedelta k 0))
  = shift (base_today now) (timedelta k 0).
Proof.
  intros Hk. destruct (clamp_cases now (shift (base_today now) (timedelta k 0)))
    as [[_ ->] | [Hlt _]]; [done|].
  pose proof (tomorrow_is_late_enough now k Hk). lia.
Qed.

(** X7: in DAILY mode only the first item can be clamped. Every later item
    [i] is today's date plus [i] days at the publish hour, and the instants
    of a returned plan increase strictly. *)
Theorem daily_only_first_clamped strptime_ymd paris_utcoffset
    (n : nat) (now : datetime) (answers : list string)
    (plan : list (option datetime)) :
  planner strptime_ymd paris_utcoffset n now "1" answers = Ok plan →
  (∀ i, (1 ≤ i < n)%nat →
     plan !! i = Some (Some (shift (base_today now) (timedelta (Z.of_nat i) 0)))) ∧
  (∀ i a b, plan !! i = Some (Some a) → plan !! S i = Some (Some b) →
     instant a < instant b).
Proof.
  intros ->%planner_daily_Ok.
  assert (Hlater : ∀ i, (1 ≤ i < n)%nat →
    map (daily_item now) (seq 0 n) !! i
    = Some (Some (shift (base_today now) (timedelta (Z.of_nat i) 0)))).
  { intros i Hi. rewrite list_lookup_fmap, lookup_seq_lt by lia. simpl.
    unfold daily_item. by rewrite clamp_from_tomorrow by lia. }
  split; [done|]. intros i a b Ha Hb.
  apply lookup_map_seq in Hb as Hb'. destruct Hb' as [Hi _].
  rewrite Hlater in Hb by lia. injection Hb as <-.
  apply lookup_map_seq in Ha as [_ [= ->]].
  rewrite instant_shift.
  destruct (clamp_cases now (shift (base_today now) (timedelta (Z.of_nat i) 0)))
    as [[_ ->] | [Hlt ->]]; rewrite instant_shift.
  - unfold timedelta, US_PER_DAY, US_PER_HOUR, US_PER_MINUTE, US_PER_SECOND. lia.
  - rewrite instant_shift in Hlt.
    destruct (decide (i = 0%nat)) as [->|Hne].
    + pose proof (tomorrow_is_late_enough now 1 ltac:(lia)) as Hle.
      rewrite instant_shift in Hle. simpl. unfold timedelta in *. 
      unfold US_PER_DAY, US_PER_HOUR, US_PER_MINUTE, US_PER_SECOND in *. lia.
    + pose proof (tomorrow_is_late_enough now (Z.of_nat i) ltac:(lia)) as Hle.
      rewrite instant_shift in Hle. lia.
Qed.

Lemma daily_only_first_clamped_witness :
  planner no_date always_CET 2 scenario_now "1" []
    = Ok [Some (datetime_of 2024 3 1 10 0 CET); Some (datetime_of 2024 3 2 10 0 CET)] ∧
  ∀ i, (1 ≤ i < 2)%nat →
    [Some (datetime_of 2024 3 1 10 0 CET); Some (datetime_of 2024 3 2 10 0 CET)] !! i
    = Some (Some (shift (base_today scenario_now) (timedelta (Z.of_nat i) 0))).
Proof.
  assert (H : planner no_date always_CET 2 scenario_now "1" []
    = Ok [Some (datetime_of 2024 3 1 10 0 CET); Some (datetime_of 2024 3 2 10 0 CET)])
    by reflexivity.
  split; [exact H|]. exact (proj1 (daily_only_first_clamped _ _ _ _ _ _ H)).
Defined.

(** X8: in EVERY_THREE_DAYS mode the margin clamp never applies: tomorrow at
    the publish hour is always far enough, so item [i] of a returned plan is
    today's date plus [1 + 3 * i] days at the publish hour. *)
Theorem three_days_from_tomorrow strptime_ymd paris_utcoffset
    (n : nat) (now : datetime) (answers : list string)
    (plan : list (option datetime)) :
  planner strptime_ymd paris_utcoffset n now "2" answers = Ok plan →
  clamp now (shift (base_today now) (timedelta 1 0))
    = shift (base_today now) (timedelta 1 0) ∧
  ∀ i, (i < n)%nat →
    plan !! i
    = Some (Some (shift (base_today now) (timedelta (1 + 3 * Z.of_nat i) 0))).
Proof.
  intros ->%planner_three_days_Ok.
  split; [by apply clamp_from_tomorrow|]. intros i Hi.
  rewrite list_lookup_fmap, lookup_seq_lt by lia. simpl.
  unfold three_days_item. rewrite clamp_from_tomorrow by lia.
  unfold shift, timedelta. simpl. do 3 f_equal. lia.
Qed.

Lemma three_days_from_tomorrow_witness :
  planner no_date always_CET 3 scenario_now "2" []
    = Ok [Some (datetime_of 2024 3 2 10 0 CET); Some (datetime_of 2024 3 5 10 0 CET);
          Some (datetime_of 2024 3 8 10 0 CET)] ∧
  clamp scenario_now (shift (base_today scenario_now) (timedelta 1 0))
    = shift (base_today scenario_now) (timedelta 1 0).
Proof.
  assert (H : planner no_date always_CET 3 scenario_now "2" []
    = Ok [Some (datetime_of 2024 3 2 10 0 CET); Some (datetime_of 2024 3 5 10 0 CET);
          Some (datetime_of 2024 3 8 10 0 CET)]) by reflexivity.
  split; [exact H|]. exact (proj1 (three_days_from_tomorrow _ _ _ _ _ _ H)).
Defined.

(** X9: within the years [datetime] supports the planner returns: when
    [now] and [now] plus [3 * n + 2] days are both in range, DAILY and
    EVERY_THREE_DAYS return their plan of [n] items, whatever the console
    holds. *)
Theorem planner_returns_within_years strptime_ymd paris_utcoffset
    (n : nat) (now : datetime) (answers : list string) :
  in_range (wall_us now) = true →
  in_range (wall_us now + timedelta (3 * Z.of_nat n + 2) 0) = true →
  planner strptime_ymd paris_utcoffset n now "1" answers
    = Ok (map (daily_item now) (seq 0 n)) ∧
  planner strptime_ymd paris_utcoffset n now "2" answers
    = Ok (map (three_days_item now) (seq 0 n)).
Proof.
  intros Hlo Hhi. split.
  - apply planner_daily_returns; [done|]. range_arith.
  - by apply planner_three_days_returns.
Qed.

Lemma planner_returns_within_years_witness :
  in_range (wall_us scenario_now) = true ∧
  in_range (wall_us scenario_now + timedelta (3 * Z.of_nat 2 + 2) 0) = true ∧
  planner no_date always_CET 2 scenario_now "1" []
    = Ok (map (daily_item scenario_now) (seq 0 2)).
Proof.
  assert (H1 : in_range (wall_us scenario_now) = true) by reflexivity.
  assert (H2 : in_range (wall_us scenario_now + timedelta (3 * Z.of_nat 2 + 2) 0) = true)
    by reflexivity.
  split; [exact H1|]. split; [exact H2|].
  exact (proj1 (planner_returns_within_years no_date always_CET 2 scenario_now [] H1 H2)).
Defined.

(** X10: in MANUAL mode every date whose publish hour falls short of the
    margin (a date in the past, or today when 10:00 is less than 20 minutes
    ahead) is scheduled at the same instant, exactly [now] plus the margin:
    two such items of a returned plan are equal. *)
Theorem manual_short_dates_collapse strptime_ymd paris_utcoffset
    (n : nat) (now : datetime) (answers : list string)
    (plan : list (option datetime)) (i : nat) (ds : string) (w : Z) :
  planner strptime_ymd paris_utcoffset n now "4" answers = Ok plan →
  (i < n)%nat →
  answers !! i = Some ds →
  strptime_ymd ds = Ok w →
  instant (paris_localize paris_utcoffset (replace_hour w UPLOAD_HOUR))
    < instant now + 20 * US_PER_MINUTE →
  plan !! i = Some (Some (shift now (20 * US_PER_MINUTE))).
Proof.
  intros [_ Hat]%planner_manual_Ok Hi Hds Hw Hshort.
  destruct (Hat i Hi) as (ds' & w' & Hds' & Hw' & ->).
  assert (ds' = ds) as -> by congruence. assert (w' = w) as -> by congruence.
  destruct (clamp_cases now (paris_localize paris_utcoffset (replace_hour w UPLOAD_HOUR)))
    as [[Hge _] | [_ ->]]; [|done].
  change MIN_MARGIN with (20 * US_PER_MINUTE) in Hge. lia.
Qed.

Lemma manual_short_dates_collapse_witness :
  planner one_date always_CET 2 scenario_now "4" ["2024-02-01"; "2024-02-01"]
    = Ok [Some (shift scenario_now (20 * US_PER_MINUTE));
          Some (shift scenario_now (20 * US_PER_MINUTE))] ∧
  [Some (shift scenario_now (20 * US_PER_MINUTE));
   Some (shift scenario_now (20 * US_PER_MINUTE))] !! 1%nat
    = Some (Some (shift scenario_now (20 * US_PER_MINUTE))).
Proof.
  assert (H : planner one_date always_CET 2 scenario_now "4" ["2024-02-01"; "2024-02-01"]
    = Ok [Some (shift scenario_now (20 * US_PER_MINUTE));
          Some (shift scenario_now (20 * US_PER_MINUTE))]) by reflexivity.
  split; [exact H|].
  refine (manual_short_dates_collapse one_date always_CET 2 scenario_now _ _ 1
            "2024-02-01" (ymd2ord 2024 2 1 * US_PER_DAY) H _ eq_refl eq_refl _).
  - lia.
  - reflexivity.
Defined.

Lemma manual_loop_stops strptime_ymd paris_utcoffset now bad e rest good :
  in_range (wall_us now + MIN_MARGIN) = true →
  Forall (λ ds, ∃ w, strptime_ymd ds = Ok w) good →
  strptime_ymd bad = Raise e →
  ∀ range dates, (length good < length range)%nat →
    manual_loop strptime_ymd paris_utcoffset now MIN_MARGIN range
      (good ++ bad :: rest) dates = Raise e.
Proof.
  intros Hr Hgood Hbad.
  induction Hgood as [|ds good [w Hw] _ IH]; intros range dates Hlen;
    (destruct range as [|k range]; [simpl in Hlen; lia|]); simpl.
  - by rewrite Hbad.
  - rewrite Hw. simpl. rewrite next_valid_in_range by done. simpl.
    apply IH. simpl in Hlen. lia.
Qed.

Lemma manual_loop_runs_out strptime_ymd paris_utcoffset now answers :
  in_range (wall_us now + MIN_MARGIN) = true →
  Forall (λ ds, ∃ w, strptime_ymd ds = Ok w) answers →
  ∀ range dates, (length answers < length range)%nat →
    manual_loop strptime_ymd paris_utcoffset now MIN_MARGIN range answers dates
    = Raise EOFError.
Proof.
  intros Hr Hgood.
  induction Hgood as [|ds good [w Hw] _ IH]; intros range dates Hlen;
    (destruct range as [|k range]; [simpl in Hlen; lia|]); simpl; [done|].
  rewrite Hw. simpl. rewrite next_valid_in_range by done. simpl.
  apply IH. simpl in Hlen. lia.
Qed.

(** X11: in MANUAL mode one malformed date is fatal to the whole plan. When
    the dates before it parse and fewer than [n] of them came first, the
    planner raises the error of [strptime] and returns no plan, whatever
    follows on the console; and when every date parses but fewer than [n]
    are given, it raises [EOFError]. *)
Theorem manual_bad_date_is_fatal strptime_ymd paris_utcoffset
    (n : nat) (now : datetime) (good rest : list string) (bad : string) (e : exn) :
  in_range (wall_us now + 20 * US_PER_MINUTE) = true →
  Forall (λ ds, ∃ w, strptime_ymd ds = Ok w) good →
  (length good < n)%nat →
  strptime_ymd bad = Raise e →
  planner strptime_ymd paris_utcoffset n now "4" (good ++ bad :: rest) = Raise e ∧
  planner strptime_ymd paris_utcoffset n now "4" good = Raise EOFError.
Proof.
  intros Hr Hgood Hlen Hbad. unfold planner. fold MIN_MARGIN. simpl. split.
  - apply manual_loop_stops; try done. by rewrite length_seq.
  - apply manual_loop_runs_out; try done. by rewrite length_seq.
Qed.

Lemma manual_bad_date_is_fatal_witness :
  in_range (wall_us scenario_now + 20 * US_PER_MINUTE) = true ∧
  Forall (λ ds, ∃ w, one_date ds = Ok w) ["2024-02-01"] ∧
  (length ["2024-02-01"] < 3)%nat ∧
  one_date "01/02/2024" = Raise (ValueError "time data does not match format") ∧
  planner one_date always_CET 3 scenario_now "4"
    (["2024-02-01"] ++ "01/02/2024" :: ["2024-02-01"])
    = Raise (ValueError "time data does not match format").
Proof.
  assert (H1 : in_range (wall_us scenario_now + 20 * US_PER_MINUTE) = true)
    by reflexivity.
  assert (H2 : Forall (λ ds, ∃ w, one_date ds = Ok w) ["2024-02-01"])
    by (apply Forall_singleton; eexists; reflexivity).
  assert (H3 : (length ["2024-02-01"] < 3)%nat) by (simpl; lia).
  split; [exact H1|]. split; [exact H2|]. split; [exact H3|]. split; [reflexivity|].
  exact (proj1 (manual_bad_date_is_fatal one_date always_CET 3 scenario_now
                  ["2024-02-01"] ["2024-02-01"] "01/02/2024" _ H1 H2 H3 eq_refl)).
Defined.

(** ** More on trim_tags *)

Lemma trim_tags_prefix tags : trim_tags tags `prefix_of` tags.
Proof.
  destruct (trim_loop_split tags 0 []) as (kept & dropped & Htags & Hloop & _).
  unfold trim_tags. rewrite Hloop. simpl. by exists dropped.
Qed.

Lemma trim_tags_keeps_fitting_prefix p tags :
  p `prefix_of` tags → tags_size p ≤ 500 → p `prefix_of` trim_tags tags.
Proof.
  intros Hp Hsize.
  destruct (trim_loop_split tags 0 []) as (kept & dropped & Htags & Hloop & _ & Hnext).
  unfold trim_tags. rewrite Hloop. simpl.
  assert (Hk : kept `prefix_of` tags) by (by exists dropped).
  destruct (prefix_weak_total _ _ _ Hp Hk) as [Hpk | [k ->]]; [done|].
  destruct k as [|t k]; [by rewrite app_nil_r|].
  rewrite Htags in Hp. apply prefix_app_inv in Hp as [rest Hd].
  specialize (Hnext t (k ++ rest) Hd).
  rewrite tags_size_app in Hsize. simpl in Hsize.
  pose proof (tags_size_nonneg k). lia.
Qed.

(** X12: [trim_tags] leaves a list untouched exactly when the list fits the
    budget: sum of the lengths plus one per tag at most 500. *)
Theorem trim_tags_unchanged_iff_fits (tags : list string) :
  trim_tags tags = tags ↔ tags_size tags ≤ 500.
Proof.
  split.
  - intros <-. apply trim_tags_within_budget.
  - intros Hfit. unfold trim_tags. by rewrite trim_loop_fits.
Qed.

(** X13: the cut is final. Once a tag does not fit, it and everything after
    it is dropped, also later tags that would fit in the room left: the
    result is the tags before the first one that overflows, whatever
    follows. *)
Theorem trim_tags_stops_at_first_overflow (kept rest : list string) (t : string) :
  tags_size kept ≤ 500 →
  500 < tags_size kept + tag_cost t →
  trim_tags (kept ++ t :: rest) = kept.
Proof.
  intros Hfit Hover.
  assert (Hk : kept `prefix_of` trim_tags (kept ++ t :: rest)).
  { apply trim_tags_keeps_fitting_prefix; [|done]. by exists (t :: rest). }
  destruct Hk as [k Hk]. destruct k as [|t' k]; [by rewrite app_nil_r in Hk|].
  pose proof (trim_tags_prefix (kept ++ t :: rest)) as Hp. rewrite Hk in Hp.
  apply prefix_app_inv in Hp. apply prefix_cons_inv_1 in Hp as ->.
  pose proof (trim_tags_within_budget (kept ++ t :: rest)) as Hsize.
  rewrite Hk, tags_size_app in Hsize. simpl in Hsize.
  pose proof (tags_size_nonneg k). lia.
Qed.

Lemma trim_tags_stops_at_first_overflow_witness :
  tags_size [tag_of_length 399] ≤ 500 ∧
  500 < tags_size [tag_of_length 399] + tag_cost (tag_of_length 100) ∧
  trim_tags ([tag_of_length 399] ++ tag_of_length 100 :: ["ai"]) = [tag_of_length 399].
Proof.
  assert (H1 : tags_size [tag_of_length 399] ≤ 500) by (vm_compute; discriminate).
  assert (H2 : 500 < tags_size [tag_of_length 399] + tag_cost (tag_of_length 100))
    by reflexivity.
  split; [exact H1|]. split; [exact H2|].
  exact (trim_tags_stops_at_first_overflow _ ["ai"] _ H1 H2).
Defined.

Lemma tags_size_ge_length tags : Z.of_nat (length tags) ≤ tags_size tags.
Proof.
  induction tags as [|t tags IH]; simpl; [done|]. unfold tag_cost. lia.
Qed.

Lemma tags_size_ge_cost t tags : t ∈ tags → tag_cost t ≤ tags_size tags.
Proof.
  induction 1 as [t tags|t t' tags _ IH]; simpl.
  - pose proof (tags_size_nonneg tags). lia.
  - pose proof (tag_cost_pos t'). lia.
Qed.

(** X14: bounds on what is sent. [trim_tags] returns at most 500 tags (an
    empty tag still costs its separator), none longer than 499 characters,
    and the characters of the kept tags plus their number stay within 500. *)
Theorem trim_tags_bounds (tags : list string) :
  (length (trim_tags tags) ≤ 500)%nat ∧
  (∀ t, t ∈ trim_tags tags → (String.length t ≤ 499)%nat) ∧
  Z.of_nat (list_sum (map String.length (trim_tags tags)))
    + Z.of_nat (length (trim_tags tags)) ≤ 500.
Proof.
  pose proof (trim_tags_within_budget tags) as Hsize.
  split; [|split].
  - pose proof (tags_size_ge_length (trim_tags tags)). lia.
  - intros t Ht. pose proof (tags_size_ge_cost _ _ Ht). unfold tag_cost in *. lia.
  - assert (Hsum : ∀ l, tags_size l
      = Z.of_nat (list_sum (map String.length l)) + Z.of_nat (length l)).
    { induction l as [|t l IH]; simpl; [done|]. unfold tag_cost. rewrite IH. lia. }
    by rewrite <- Hsum.
Qed.

(** X15: adding tags at the end never removes one from the result: the
    result for a list is a prefix of the result for any extension of it. *)
Theorem trim_tags_prefix_monotone (tags more : list string) :
  trim_tags tags `prefix_of` trim_tags (tags ++ more).
Proof.
  apply trim_tags_keeps_fitting_prefix; [|apply trim_tags_within_budget].
  etrans; [apply trim_tags_prefix|]. by exists more.
Qed.

(** ** More on upload *)

Lemma build_body_snippet video meta when body :
  build_body video meta when = Ok body →
  snippet body =
    <["defaultLanguage" := JStr "fr"]>
    (<["categoryId" := JStr CATEGORY_ID]>
    (<["tags" := JStrs (trim_tags (default [] (meta_tags meta)))]>
    (<["description" := JStr (default EmptyString (meta_description meta))]>
    (<["title" := JStr (default (video_stem video) (meta_title meta))]> ∅)))).
Proof.
  unfold build_body. destruct when as [d|]; [|by intros [= <-]].
  destruct (iso (Some d)) as [text| |]; simpl; [|done..]. by intros [= <-].
Qed.

(** X16: the snippet block of the request body. A missing title falls back
    to the file's stem and a missing description to the empty text; the
    tags sent are a prefix of the metadata's tags (none when the key is
    absent) within the budget of 500; the category is "28" and the language
    "fr"; the block has these five keys and does not depend on the schedule. *)
Theorem upload_snippet_block (video : video_file) (meta : metadata)
    (when : option datetime) (body : request_body) :
  build_body video meta when = Ok body →
  snippet body !! "title"
    = Some (JStr (match meta_title meta with
                  | Some title => title
                  | None => video_stem video
                  end)) ∧
  snippet body !! "description"
    = Some (JStr (match meta_description meta with
                  | Some text => text
                  | None => EmptyString
                  end)) ∧
  (∃ tags, snippet body !! "tags" = Some (JStrs tags) ∧
     tags `prefix_of` default [] (meta_tags meta) ∧ tags_size tags ≤ 500) ∧
  snippet body !! "categoryId" = Some (JStr "28") ∧
  snippet body !! "defaultLanguage" = Some (JStr "fr") ∧
  size (snippet body) = 5%nat ∧
  (∀ when' body', build_body video meta when' = Ok body' →
     snippet body' = snippet body).
Proof.
  intros Hbody. rewrite (build_body_snippet _ _ _ _ Hbody).
  split; [by destruct (meta_title meta)|].
  split; [by destruct (meta_description meta)|].
  split; [|split; [done|split; [done|split; [done|]]]].
  - eexists. split; [done|].
    split; [apply trim_tags_prefix|apply trim_tags_within_budget].
  - intros when' body' Hbody'. by rewrite (build_body_snippet _ _ _ _ Hbody').
Qed.

Lemma upload_snippet_block_witness :
  ∃ body,
    build_body scenario_video (mk_metadata None None None) None = Ok body ∧
    snippet body !! "title" = Some (JStr "clip").
Proof.
  eexists. split; [reflexivity|].
  exact (proj1 (upload_snippet_block scenario_video (mk_metadata None None None)
                  None _ eq_refl)).
Defined.

Lemma chunk_loop_of_chunk_loop script : ∀ last_shown,
  Forall of_chunk_loop (events (chunk_loop script last_shown w0).2).
Proof.
  assert (Hbar : ∀ (show : bool) p,
    Forall of_chunk_loop (if show then [Ev_progress_bar p] else [])).
  { intros [] p; [|done]. apply Forall_singleton. right. eauto. }
  induction script as [|[status resp|e] script IH]; intros last_shown.
  - apply Forall_singleton. by left.
  - rewrite chunk_loop_Returns. cbv zeta.
    destruct resp as [r|]; simpl.
    + constructor; [by left|]. apply Hbar.
    + constructor; [by left|]. apply Forall_app. split; [apply Hbar|apply IH].
  - apply Forall_singleton. by left.
Qed.

(** X17: the DONE path. When a chunk call returns the final item, the calls
    before it having returned without one, the upload returns normally
    after exactly that many calls of [next_chunk]; the last thing it records
    is the line with the video's id, it logs no API error, and what the
    remote would answer to further calls plays no part. *)
Theorem final_item_ends_upload (video : video_file) (meta : metadata)
    (when : option datetime) (body : request_body)
    (pre rest : list chunk_result) (status : option Q) (r : response) :
  build_body video meta when = Ok body →
  Forall in_progress pre →
  (upload video meta when (pre ++ Returns status (Some r) :: rest) w0).1 = Ok tt ∧
  count is_next_chunk
    (events (upload video meta when (pre ++ Returns status (Some r) :: rest) w0).2)
    = S (length pre) ∧
  last (events (upload video meta when (pre ++ Returns status (Some r) :: rest) w0).2)
    = Some (Ev_upload_done (resp_id r)) ∧
  count is_api_log
    (events (upload video meta when (pre ++ Returns status (Some r) :: rest) w0).2)
    = 0%nat ∧
  (∀ rest', upload video meta when (pre ++ Returns status (Some r) :: rest') w0
            = upload video meta when (pre ++ Returns status (Some r) :: rest) w0).
Proof.
  intros Hbody Hpre.
  destruct (chunk_loop_in_progress pre 0%Q Hpre) as (last' & t' & Hrun & Hcount').
  set (bar := if match status with
                 | Some p => Qle_bool PROGRESS_STEP (p - last')
                 | None => false
                 end
              then [Ev_progress_bar (default last' status)] else []).
  assert (Hup : ∀ rest', upload video meta when (pre ++ Returns status (Some r) :: rest') w0
    = (Ok tt,
       mk_world ([Ev_MediaFileUpload (video_path video); Ev_insert body]
                 ++ ((t' ++ Ev_next_chunk :: bar) ++ [])
                 ++ [Ev_upload_done (resp_id r)])
                [video_path video])).
  { intros rest'. rewrite (upload_run _ _ _ _ _ _ Hbody), session_run, Hrun.
    rewrite chunk_loop_Returns. cbv zeta. cbn [fst snd events held].
    unfold bar. destruct status as [p|]; [|done].
    by destruct (Qle_bool PROGRESS_STEP (p - last')). }
  assert (Ht' : Forall of_chunk_loop t').
  { pose proof (chunk_loop_of_chunk_loop (pre ++ []) 0%Q) as Hk.
    rewrite Hrun in Hk. simpl in Hk. by apply Forall_app in Hk as [Hk _]. }
  assert (Hbar : Forall of_chunk_loop bar).
  { unfold bar. destruct (match status with Some _ => _ | None => _ end); [|done].
    apply Forall_singleton. right. eauto. }
  assert (Hquiet : ∀ l, Forall of_chunk_loop l → count is_api_log l = 0%nat).
  { intros l Hl. apply count_none. eapply Forall_impl; [exact Hl|].
    by intros ev [-> | [p ->]]. }
  rewrite (Hup rest). cbn [fst snd events].
  split; [done|]. split; [|split; [|split]].
  - rewrite !count_app, Hcount'.
    assert (count is_next_chunk bar = 0%nat) as Hb.
    { unfold bar. by destruct (match status with Some _ => _ | None => _ end). }
    change (Ev_next_chunk :: bar) with ([Ev_next_chunk] ++ bar).
    rewrite count_app, Hb. unfold count. simpl. lia.
  - rewrite !app_assoc. apply last_snoc.
  - change (Ev_next_chunk :: bar) with ([Ev_next_chunk] ++ bar).
    rewrite !count_app, (Hquiet _ Ht'), (Hquiet _ Hbar). done.
  - intros rest'. apply Hup.
Qed.

Lemma final_item_ends_upload_witness :
  ∃ body,
    build_body scenario_video scenario_meta None = Ok body ∧
    Forall in_progress [Returns (Some (1 # 2)%Q) None] ∧
    (upload scenario_video scenario_meta None
       ([Returns (Some (1 # 2)%Q) None]
        ++ Returns None (Some (mk_response "dQw4")) :: []) w0).1 = Ok tt.
Proof.
  assert (Hpre : Forall in_progress [Returns (Some (1 # 2)%Q) None])
    by (apply Forall_singleton; by exists (Some (1 # 2)%Q)).
  eexists. split; [reflexivity|]. split; [exact Hpre|].
  exact (proj1 (final_item_ends_upload scenario_video scenario_meta None _
                  [Returns (Some (1 # 2)%Q) None] [] None (mk_response "dQw4")
                  eq_refl Hpre)).
Defined.

(** X18: only an [HttpError] is logged by [upload]. Whatever a chunk call
    raises ends the upload with that very error; the line "YouTube API
    error" is recorded, once and last, when the error is an [HttpError], and
    not at all for any other error. *)
Theorem only_http_errors_are_logged (video : video_file) (meta : metadata)
    (when : option datetime) (body : request_body)
    (pre rest : list chunk_result) (e : exn) :
  build_body video meta when = Ok body →
  Forall in_progress pre →
  (upload video meta when (pre ++ Raises e :: rest) w0).1 = Raise e ∧
  count is_api_log (events (upload video meta when (pre ++ Raises e :: rest) w0).2)
    = (if is_HttpError e then 1%nat else 0%nat) ∧
  (is_HttpError e = true →
   last (events (upload video meta when (pre ++ Raises e :: rest) w0).2)
     = Some (Ev_log_api_error e)).
Proof.
  intros Hbody Hpre.
  destruct (chunk_loop_in_progress pre 0%Q Hpre) as (last' & t' & Hrun & _).
  assert (Ht' : Forall of_chunk_loop t').
  { pose proof (chunk_loop_of_chunk_loop (pre ++ []) 0%Q) as Hk.
    rewrite Hrun in Hk. simpl in Hk. by apply Forall_app in Hk as [Hk _]. }
  assert (Hquiet : count is_api_log t' = 0%nat).
  { apply count_none. eapply Forall_impl; [exact Ht'|]. by intros ev [-> | [p ->]]. }
  rewrite (upload_run _ _ _ _ _ _ Hbody), session_run, Hrun, chunk_loop_Raises.
  cbn [fst snd events held extend w0 app].
  split; [done|]. split.
  - change (Ev_MediaFileUpload (video_path video) :: Ev_insert body :: ?l)
      with ([Ev_MediaFileUpload (video_path video); Ev_insert body] ++ l).
    rewrite !count_app, Hquiet. by destruct (is_HttpError e).
  - intros ->. rewrite app_nil_r.
    change (Ev_MediaFileUpload (video_path video) :: Ev_insert body :: ?l)
      with ([Ev_MediaFileUpload (video_path video); Ev_insert body] ++ l).
    rewrite !app_assoc. apply last_snoc.
Qed.

Lemma only_http_errors_are_logged_witness :
  ∃ body,
    build_body scenario_video scenario_meta None = Ok body ∧
    Forall in_progress [Returns None None] ∧
    (upload scenario_video scenario_meta None
       ([Returns None None] ++ Raises (OSError "Connection reset") :: []) w0).1
      = Raise (OSError "Connection reset").
Proof.
  assert (Hpre : Forall in_progress [Returns None None])
    by (apply Forall_singleton; by exists None).
  eexists. split; [reflexivity|]. split; [exact Hpre|].
  exact (proj1 (only_http_errors_are_logged scenario_video scenario_meta None _
                  [Returns None None] [] (OSError "Connection reset") eq_refl Hpre)).
Defined.

(** ** How often progress is shown *)

Lemma chunk_loop_shown_reported (P : Q → Prop) script : ∀ last_shown,
  Forall P (reported script) →
  Forall P (shown (events (chunk_loop script last_shown w0).2)).
Proof.
  induction script as [|[status resp|e] script IH]; intros last_shown Hrep; [done| |done].
  rewrite chunk_loop_Returns. cbv zeta.
  assert (Hrest : Forall P (reported script)).
  { unfold reported in *. simpl in Hrep. destruct status; [|done].
    by apply Forall_cons in Hrep as [_ ?]. }
  destruct status as [p|]; simpl.
  - unfold reported in Hrep. simpl in Hrep. apply Forall_cons in Hrep as [Hp _].
    destruct (Qle_bool PROGRESS_STEP (p - last_shown)); simpl.
    + destruct resp as [r|]; simpl; [by apply Forall_singleton|].
      constructor; [done|]. by apply IH.
    + destruct resp as [r|]; simpl; [done|]. by apply IH.
  - destruct resp as [r|]; simpl; [done|]. by apply IH.
Qed.

Lemma steps_from_room ps : ∀ last bound,
  (last <= bound)%Q →
  steps_from last ps → Forall (λ p, (p <= bound)%Q) ps →
  (inject_Z (Z.of_nat (length ps)) * PROGRESS_STEP <= bound - last)%Q.
Proof.
  induction ps as [|p ps IH]; intros last bound Hlast Hsteps Hall.
  - cbn [length]. change (inject_Z (Z.of_nat 0)) with 0%Q. lra.
  - destruct Hsteps as [Hstep Hsteps]. apply Forall_cons in Hall as [Hp Hall].
    specialize (IH p bound Hp Hsteps Hall).
    cbn [length]. rewrite Nat2Z.inj_succ. unfold Z.succ. rewrite inject_Z_plus.
    change (inject_Z 1) with 1%Q. revert IH.
    generalize (inject_Z (Z.of_nat (length ps))). intros x IH.
    unfold PROGRESS_STEP in *. lra.
Qed.

(** X19: how often progress is shown does not depend on the number of
    chunks. When the fractions the chunk calls report are at most 1, one
    upload shows at most 20 progress bars, and every value shown is one of
    the values reported. *)
Theorem progress_bars_bounded (video : video_file) (meta : metadata)
    (when : option datetime) (script : list chunk_result) :
  Forall (λ p, (p <= 1)%Q) (reported script) →
  (length (shown (events (upload video meta when script w0).2)) ≤ 20)%nat ∧
  Forall (λ p, (p <= 1)%Q) (shown (events (upload video meta when script w0).2)).
Proof.
  intros Hrep.
  assert (Hshown : shown (events (upload video meta when script w0).2) = []
                   ∨ shown (events (upload video meta when script w0).2)
                     = shown (events (chunk_loop script 0%Q w0).2)).
  { destruct (build_body video meta when) as [body| |] eqn:Hbody.
    - right. rewrite (upload_run _ _ _ _ _ _ Hbody). cbn [snd events extend w0 app].
      match goal with
      | |- shown (_ :: _ :: ?l) = _ => change (shown l = shown (events (chunk_loop script 0%Q w0).2))
      end.
      rewrite shown_app, session_shown.
      replace (shown (match _ with Ok _ => _ | _ => _ end)) with (@nil Q)
        by (by destruct (session script).1).
      by rewrite app_nil_r.
    - left. rewrite upload_not_sent; [done|]. intros b. congruence.
    - left. rewrite upload_not_sent; [done|]. intros b. congruence. }
  destruct Hshown as [-> | ->]; [split; [simpl; lia|done]|].
  pose proof (chunk_loop_shown_reported _ script 0%Q Hrep) as Hle.
  split; [|done].
  pose proof (steps_from_room _ 0%Q 1%Q ltac:(lra) (chunk_loop_steps script 0%Q) Hle)
    as Hroom.
  revert Hroom. generalize (length (shown (events (chunk_loop script 0%Q w0).2))).
  intros k Hk. unfold PROGRESS_STEP, Qle in Hk. simpl in Hk. lia.
Qed.

Lemma progress_bars_bounded_witness :
  Forall (λ p, (p <= 1)%Q) (reported (chunks scenario_passing)) ∧
  (length (shown (events (upload scenario_video scenario_meta None
                            (chunks scenario_passing) w0).2)) ≤ 20)%nat.
Proof.
  assert (H : Forall (λ p, (p <= 1)%Q) (reported (chunks scenario_passing))).
  { apply Forall_singleton. unfold Qle. simpl. lia. }
  split; [exact H|].
  exact (proj1 (progress_bars_bounded scenario_video scenario_meta None _ H)).
Defined.

(** ** More on main *)

Lemma main_loop_step folder when items :
  main_loop ((folder, when) :: items) w0 =
    match (iteration folder when).1 with
    | Ok _ =>
        ((main_loop items w0).1,
         extend (iteration folder when).2 (main_loop items w0).2)
    | _ => iteration folder when
    end.
Proof.
  cbn [main_loop]. unfold mbind, M_bind.
  change (try_except _ _ _ w0) with (iteration folder when).
  destruct (iteration folder when) as [[[]|e|] w1]; simpl; try done.
  by rewrite (framed_main_loop items w1).
Qed.


(** X20: the errors that concern the whole batch stop [main] before
    anything is done. When [choose_folders] or the planner raises (no
    complete folder, a selection that is not accepted, a choice outside
    "1".."4", a malformed date), [main] ends with that error and has
    recorded nothing: no upload was started and no folder moved. *)
Theorem main_fails_before_any_upload strptime_ymd paris_utcoffset
    (dirs : list job) (parts : list string) (now : datetime) (choice : string)
    (answers : list string) (e : exn) (w : world) :
  (choose_folders dirs parts = Raise e ∨
   ∃ folders, choose_folders dirs parts = Ok folders ∧
     planner strptime_ymd paris_utcoffset (length folders) now choice answers
       = Raise e) →
  main_from_root strptime_ymd paris_utcoffset dirs parts now choice answers w
    = (Raise e, w).
Proof.
  unfold main_from_root, main, mbind, M_bind, lift.
  intros [-> | (folders & -> & ->)]; done.
Qed.

Lemma main_fails_before_any_upload_witness :
  (choose_folders scenario_dirs ["2"] = Raise (SystemExit "Choix invalide") ∨
   ∃ folders, choose_folders scenario_dirs ["2"] = Ok folders ∧
     planner no_date always_CET (length folders) scenario_now "5" []
       = Raise (SystemExit "Choix invalide")) ∧
  main_from_root no_date always_CET scenario_dirs ["2"] scenario_now "5" [] w0
    = (Raise (SystemExit "Choix invalide"), w0).
Proof.
  assert (H : choose_folders scenario_dirs ["2"] = Raise (SystemExit "Choix invalide") ∨
    ∃ folders, choose_folders scenario_dirs ["2"] = Ok folders ∧
      planner no_date always_CET (length folders) scenario_now "5" []
        = Raise (SystemExit "Choix invalide")).
  { right. exists [scenario_failing]. split; reflexivity. }
  split; [exact H|].
  exact (main_fails_before_any_upload no_date always_CET scenario_dirs ["2"]
           scenario_now "5" [] _ w0 H).
Defined.



(** X22: an interrupt is not a failure of one folder. When a chunk call
    raises something that is not an instance of [Exception]
    ([KeyboardInterrupt]), the [except Exception] clause of [main] does not
    catch it: the loop ends with it at once, no failure is logged, the
    folder is not moved, and the folders after it are not looked into. *)
Theorem interrupt_ends_the_batch (folder : job) (when : option datetime)
    (video : video_file) (meta : metadata) (body : request_body)
    (pre rest : list chunk_result) (e : exn)
    (items : list (job * option datetime)) :
  find_video_meta folder = Ok (video, meta) →
  build_body video meta when = Ok body →
  chunks folder = pre ++ Raises e :: rest →
  Forall in_progress pre →
  is_Exception e = false →
  (main_loop ((folder, when) :: items) w0).1 = Raise e ∧
  main_loop ((folder, when) :: items) w0 = main_loop [(folder, when)] w0 ∧
  omap is_find (events (main_loop ((folder, when) :: items) w0).2)
    = [folder_name folder] ∧
  (∀ name, count (is_move name) (events (main_loop ((folder, when) :: items) w0).2)
             = 0%nat ∧
           count (is_failure name) (events (main_loop ((folder, when) :: items) w0).2)
             = 0%nat).
Proof.
  intros Hfind Hbody Hchunks Hpre Hexc.
  assert (Hit : (iteration folder when).1 = Raise e ∧
    events (iteration folder when).2
    = [Ev_find_video_meta (folder_name folder)]
      ++ (Ev_log_upload (folder_name folder) when
          :: events (upload video meta when (chunks folder) w0).2)).
  { rewrite iteration_run, process_folder_run, Hfind. cbv zeta.
    destruct (session_fails pre e Hpre) as (t & _ & _ & Hsess).
    rewrite Hchunks, (upload_run _ _ _ _ _ _ Hbody), Hsess.
    cbn [fst snd events held]. by rewrite Hexc. }
  destruct Hit as [Hres Hev].
  assert (Hquiet : Forall before_end
    (Ev_log_upload (folder_name folder) when
     :: events (upload video meta when (chunks folder) w0).2)).
  { constructor; [right; eauto|].
    eapply Forall_impl; [apply upload_of_upload|]. by left. }
  destruct (before_end_quiet _ Hquiet) as [Hnofind Hnone].
  assert (Hsame : ∀ items', main_loop ((folder, when) :: items') w0
                            = iteration folder when).
  { intros items'. rewrite main_loop_step. by rewrite Hres. }
  rewrite (Hsame items), (Hsame []), Hres, Hev.
  split; [done|]. split; [done|]. split.
  - by rewrite omap_app, Hnofind.
  - intros name. rewrite !count_app. by destruct (Hnone name) as [-> ->].
Qed.

Lemma interrupt_ends_the_batch_witness :
  ∃ body,
    build_body scenario_video scenario_meta None = Ok body ∧
    (main_loop
       ((mk_job "f1" [scenario_video] (Some (Ok scenario_meta))
           ([] ++ Raises KeyboardInterrupt :: []) (Ok tt), None)
        :: [(scenario_passing, None)]) w0).1 = Raise KeyboardInterrupt.
Proof.
  eexists. split; [reflexivity|].
  exact (proj1 (interrupt_ends_the_batch
    (mk_job "f1" [scenario_video] (Some (Ok scenario_meta))
       ([] ++ Raises KeyboardInterrupt :: []) (Ok tt))
    None scenario_video scenario_meta _ [] [] KeyboardInterrupt
    [(scenario_passing, None)] eq_refl eq_refl eq_refl (List.Forall_nil _) eq_refl)).
Defined.

(** X23: a move that fails after a DONE upload is reported as a failure of
    the folder. The iteration ends with the call of [shutil.move] followed
    by the failure line; the line "Dossier archivé" is not logged, and
    [main] goes on with the folders that remain. *)
Theorem move_failure_is_logged (folder : job) (when : option datetime) (e : exn)
    (items : list (job * option datetime)) :
  upload_result folder when = Ok tt →
  move_result folder = Raise e →
  is_Exception e = true →
  (∃ mid, Forall before_end mid ∧
     events (iteration folder when).2
     = [Ev_find_video_meta (folder_name folder)] ++ mid
       ++ [Ev_move (folder_name folder); Ev_log_failure (folder_name folder) e]) ∧
  main_loop ((folder, when) :: items) w0 =
    ((main_loop items w0).1,
     extend (iteration folder when).2 (main_loop items w0).2).
Proof.
  intros Hres Hmove Hexc. unfold upload_result in Hres.
  assert (Hit : (iteration folder when).1 = Ok tt ∧
    ∃ mid, Forall before_end mid ∧
      events (iteration folder when).2
      = [Ev_find_video_meta (folder_name folder)] ++ mid
        ++ [Ev_move (folder_name folder); Ev_log_failure (folder_name folder) e]).
  { rewrite iteration_run, process_folder_run.
    destruct (find_video_meta folder) as [[video meta]| |]; simpl in Hres; [|done..].
    pose proof (upload_of_upload video meta when (chunks folder)) as Hup.
    cbv zeta. rewrite Hres, Hmove. cbn [fst snd events held]. rewrite Hexc.
    split; [done|].
    exists (Ev_log_upload (folder_name folder) when
            :: events (upload video meta when (chunks folder) w0).2).
    split.
    - constructor; [right; eauto|]. eapply Forall_impl; [exact Hup|]. by left.
    - cbn [events]. simpl. by rewrite <- !app_assoc. }
  destruct Hit as [Hok Hev]. split; [done|].
  rewrite main_loop_step. by rewrite Hok.
Qed.

Lemma move_failure_is_logged_witness :
  upload_result
    (mk_job "f2" [scenario_video] (Some (Ok scenario_meta))
       [Returns None (Some (mk_response "dQw4"))]
       (Raise (OSError "Destination path already exists"))) None = Ok tt ∧
  main_loop
    [(mk_job "f2" [scenario_video] (Some (Ok scenario_meta))
        [Returns None (Some (mk_response "dQw4"))]
        (Raise (OSError "Destination path already exists")), None)] w0
  = ((main_loop [] w0).1,
     extend
       (iteration
          (mk_job "f2" [scenario_video] (Some (Ok scenario_meta))
             [Returns None (Some (mk_response "dQw4"))]
             (Raise (OSError "Destination path already exists"))) None).2
       (main_loop [] w0).2).
Proof.
  split; [reflexivity|].
  exact (proj2 (move_failure_is_logged
    (mk_job "f2" [scenario_video] (Some (Ok scenario_meta))
       [Returns None (Some (mk_response "dQw4"))]
       (Raise (OSError "Destination path already exists")))
    None (OSError "Destination path already exists") [] eq_refl eq_refl eq_refl)).
Defined.

(** X24: a folder that is no longer complete when its turn comes (its video
    or its metadata gone since the selection) is skipped without anything
    being sent: the iteration records the look into the folder and the
    failure line only, keeps no handle, and [main] goes on. *)
Theorem lost_folder_is_skipped (folder : job) (when : option datetime) (e : exn)
    (items : list (job * option datetime)) :
  find_video_meta folder = Raise e →
  is_Exception e = true →
  iteration folder when
    = (Ok tt, mk_world [Ev_find_video_meta (folder_name folder);
                        Ev_log_failure (folder_name folder) e] []) ∧
  main_loop ((folder, when) :: items) w0 =
    ((main_loop items w0).1,
     extend (mk_world [Ev_find_video_meta (folder_name folder);
                       Ev_log_failure (folder_name folder) e] [])
            (main_loop items w0).2).
Proof.
  intros Hfind Hexc.
  assert (Hit : iteration folder when
    = (Ok tt, mk_world [Ev_find_video_meta (folder_name folder);
                        Ev_log_failure (folder_name folder) e] [])).
  { rewrite iteration_run, process_folder_run, Hfind. cbn [fst snd events held].
    by rewrite Hexc. }
  split; [done|]. rewrite main_loop_step. by rewrite Hit.
Qed.

Lemma lost_folder_is_skipped_witness :
  find_video_meta scenario_empty_dir = Raise (FileNotFoundError "vidéo absente") ∧
  iteration scenario_empty_dir None
    = (Ok tt, mk_world [Ev_find_video_meta (folder_name scenario_empty_dir);
                        Ev_log_failure (folder_name scenario_empty_dir)
                          (FileNotFoundError "vidéo absente")] []).
Proof.
  split; [reflexivity|].
  exact (proj1 (lost_folder_is_skipped scenario_empty_dir None
                  (FileNotFoundError "vidéo absente") [] eq_refl eq_refl)).
Defined.

(** ** The requests of a batch *)

Lemma count_zero_not_in p t ev : count p t = 0%nat → ev ∈ t → p ev = false.
Proof.
  unfold count. induction t as [|ev' t IH]; intros Hc Hin; [by apply elem_of_nil in Hin|].
  simpl in Hc. destruct (p ev') eqn:Hp; [done|].
  apply elem_of_cons in Hin as [-> | Hin]; [done|by apply IH].
Qed.

Lemma upload_inserts video meta when script body :
  Ev_insert body ∈ events (upload video meta when script w0).2 →
  build_body video meta when = Ok body.
Proof.
  destruct (build_body video meta when) as [body0| |] eqn:Hbody.
  - rewrite (upload_run _ _ _ _ _ _ Hbody). cbn [snd events extend w0 app].
    rewrite !elem_of_cons, elem_of_app.
    intros [[=] | [[= ->] | [Hin | Hin]]]; [done| |].
    + by apply (count_zero_not_in _ _ _ (session_no_insert script)) in Hin.
    + destruct (session script).1; [|by apply elem_of_nil in Hin..].
      by apply list_elem_of_singleton in Hin.
  - rewrite upload_not_sent; [by intros ?%elem_of_nil|]. intros b. congruence.
  - rewrite upload_not_sent; [by intros ?%elem_of_nil|]. intros b. congruence.
Qed.

Lemma iteration_inserts folder when body :
  Ev_insert body ∈ events (iteration folder when).2 →
  ∃ video meta,
    find_video_meta folder = Ok (video, meta) ∧ build_body video meta when = Ok body.
Proof.
  assert (Hproc : Ev_insert body ∈ events (process_folder folder when w0).2 →
    ∃ video meta,
      find_video_meta folder = Ok (video, meta) ∧ build_body video meta when = Ok body).
  { rewrite process_folder_run.
    destruct (find_video_meta folder) as [[video meta]|e|];
      [|simpl; intros Hin; apply list_elem_of_singleton in Hin; discriminate..].
    cbv zeta. intros Hin. exists video, meta. split; [done|].
    apply (upload_inserts _ _ _ (chunks folder)).
    destruct (upload video meta when (chunks folder) w0).1 as [[]|e|];
      [destruct (move_result folder) as [[]|e|]|..]; cbn [snd events] in Hin;
      repeat (apply elem_of_app in Hin as [Hin | Hin]);
      repeat (apply elem_of_cons in Hin as [Hin | Hin]);
      first [done | discriminate | by apply elem_of_nil in Hin]. }
  rewrite iteration_run.
  destruct (process_folder folder when w0).1 as [[]|e|]; try done.
  destruct (is_Exception e); [|done].
  cbn [snd events]. rewrite elem_of_app, list_elem_of_singleton.
  intros [Hin | [=]]. by apply Hproc.
Qed.

Lemma main_loop_inserts items body :
  Ev_insert body ∈ events (main_loop items w0).2 →
  ∃ folder when video meta,
    (folder, when) ∈ items ∧
    find_video_meta folder = Ok (video, meta) ∧ build_body video meta when = Ok body.
Proof.
  induction items as [|[folder when] items IH]; [by intros ?%elem_of_nil|].
  rewrite main_loop_step. intros Hin.
  assert (Hcase : Ev_insert body ∈ events (iteration folder when).2
                  ∨ Ev_insert body ∈ events (main_loop items w0).2).
  { destruct (iteration folder when).1; [|by left..].
    cbn [snd extend events] in Hin. by apply elem_of_app in Hin. }
  destruct Hcase as [Hhere | Hlater].
  - destruct (iteration_inserts _ _ _ Hhere) as (video & meta & Hfind & Hbody).
    exists folder, when, video, meta. split; [by left|done].
  - destruct (IH Hlater) as (f & wh & video & meta & Hitem & Hfind & Hbody).
    exists f, wh, video, meta. split; [by right|done].
Qed.

Lemma planner_entries_late strptime_ymd paris_utcoffset n now choice answers plan :
  choice ∈ ["1"; "2"; "4"] →
  planner strptime_ymd paris_utcoffset n now choice answers = Ok plan →
  ∀ entry, entry ∈ plan →
    ∃ d, entry = Some d ∧ instant now + MIN_MARGIN ≤ instant d.
Proof.
  intros Hchoice Hplan entry Hentry.
  apply list_elem_of_lookup in Hentry as [i Hi].
  apply elem_of_cons in Hchoice as [-> | Hchoice];
    [| apply elem_of_cons in Hchoice as [-> | Hchoice];
       [| apply list_elem_of_singleton in Hchoice as ->]].
  - apply planner_daily_Ok in Hplan as ->.
    apply lookup_map_seq in Hi as [_ ->]. eexists. split; [done|]. apply clamp_ge.
  - apply planner_three_days_Ok in Hplan as ->.
    apply lookup_map_seq in Hi as [_ ->]. eexists. split; [done|].
    rewrite instant_shift.
    pose proof (clamp_ge now (shift (base_today now) (timedelta 1 0))).
    pose proof (timedelta_days_nonneg (3 * Z.of_nat i)). lia.
  - apply planner_manual_Ok in Hplan as [Hlen Hat].
    pose proof (lookup_lt_Some _ _ _ Hi) as Hlt. rewrite Hlen in Hlt.
    destruct (Hat i Hlt) as (ds & w & _ & _ & Hnew). rewrite Hnew in Hi.
    injection Hi as <-. eexists. split; [done|]. apply clamp_ge.
Qed.

(** X25: the requests of a batch follow the plan. Every request body that
    [main] hands to [insert] is public without [publishAt] in mode "3", and
    in the modes "1", "2" and "4" private with a [publishAt] that renders
    an instant at least 20 minutes after [now]. *)
Theorem requests_follow_the_plan strptime_ymd paris_utcoffset
    (folders : list job) (now : datetime) (choice : string)
    (answers : list string) (body : request_body) :
  Ev_insert body
    ∈ events (main strptime_ymd paris_utcoffset folders now choice answers w0).2 →
  (choice = "3" ∧
   status body !! "privacyStatus" = Some (JStr "public") ∧
   status body !! "publishAt" = None) ∨
  (choice ∈ ["1"; "2"; "4"] ∧
   status body !! "privacyStatus" = Some (JStr "private") ∧
   ∃ d, instant now + 20 * US_PER_MINUTE ≤ instant d ∧
        status body !! "publishAt"
          = Some (JStr (strftime_iso (mk_datetime (instant d) 0)))).
Proof.
  unfold main, mbind, M_bind, lift.
  destruct (planner _ _ _ _ _ _) as [plan|e|] eqn:Hplan;
    [|by intros ?%elem_of_nil..].
  intros (folder & when & video & meta & Hitem & Hfind & Hbody)%main_loop_inserts.
  apply (list_elem_of_fmap_2 snd) in Hitem. simpl in Hitem.
  assert (Hwhen : when ∈ plan).
  { apply list_elem_of_lookup in Hitem as [i Hi].
    rewrite list_lookup_fmap in Hi.
    destruct (zip folders plan !! i) as [[f wh]|] eqn:Hz; [|done].
    injection Hi as <-. apply lookup_zip_with_Some in Hz as (x & y & [= <- <-] & _ & Hy).
    apply list_elem_of_lookup. eauto. }
  apply build_body_Ok in Hbody as [Hstatus _].
  destruct (decide (choice ∈ ["1"; "2"; "3"; "4"])) as [Hin|Hout];
    [|by rewrite planner_invalid_choice in Hplan].
  destruct (decide (choice = "3")) as [->|Hne].
  - left. injection Hplan as <-. apply elem_of_replicate in Hwhen as [-> _].
    rewrite Hstatus. by repeat split.
  - right.
    assert (Hsched : choice ∈ ["1"; "2"; "4"]).
    { repeat (apply elem_of_cons in Hin as [-> | Hin]);
        first [done | by apply elem_of_nil in Hin | by repeat constructor]. }
    destruct (planner_entries_late _ _ _ _ _ _ _ Hsched Hplan when Hwhen)
      as (d & -> & Hlate).
    rewrite Hstatus. split; [done|]. split; [done|].
    exists d. split; [exact Hlate|]. by rewrite lookup_insert_eq.
Qed.

Lemma requests_follow_the_plan_witness :
  Ev_insert scenario_public_body
    ∈ events (main no_date always_CET [scenario_passing] scenario_now "3" [] w0).2 ∧
  ((("3" : string) = "3" ∧
    status scenario_public_body !! "privacyStatus" = Some (JStr "public") ∧
    status scenario_public_body !! "publishAt" = None) ∨
   ("3" ∈ ["1"; "2"; "4"] ∧
    status scenario_public_body !! "privacyStatus" = Some (JStr "private") ∧
    ∃ d, instant scenario_now + 20 * US_PER_MINUTE ≤ instant d ∧
         status scenario_public_body !! "publishAt"
           = Some (JStr (strftime_iso (mk_datetime (instant d) 0))))).
Proof.
  assert (H : Ev_insert scenario_public_body
    ∈ events (main no_date always_CET [scenario_passing] scenario_now "3" [] w0).2).
  { apply list_elem_of_lookup. exists 3%nat. reflexivity. }
  split; [exact H|].
  exact (requests_follow_the_plan no_date always_CET [scenario_passing]
           scenario_now "3" [] _ H).
Defined.

(** ** More on iso *)

Lemma strftime_iso_whole_seconds w :
  strftime_iso (mk_datetime w 0)
  = strftime_iso (mk_datetime (w / US_PER_SECOND * US_PER_SECOND) 0).
Proof.
  unfold strftime_iso. cbn [wall_us].
  replace (w / US_PER_SECOND * US_PER_SECOND / US_PER_DAY) with (w / US_PER_DAY)
    by clock_arith.
  replace ((w / US_PER_SECOND * US_PER_SECOND) mod US_PER_DAY / US_PER_HOUR)
    with (w mod US_PER_DAY / US_PER_HOUR) by clock_arith.
  replace ((w / US_PER_SECOND * US_PER_SECOND) mod US_PER_DAY / US_PER_MINUTE)
    with (w mod US_PER_DAY / US_PER_MINUTE) by clock_arith.
  replace ((w / US_PER_SECOND * US_PER_SECOND) mod US_PER_DAY / US_PER_SECOND)
    with (w mod US_PER_DAY / US_PER_SECOND) by clock_arith.
  done.
Qed.

(** X26: [iso] keeps the instant to the second and nothing else. Two
    scheduled instants, in whatever zones, are rendered as the same text
    exactly when they fall in the same second of the UTC time line. *)
Theorem iso_same_text_iff_same_second (d1 d2 : datetime) (text1 text2 : string) :
  iso (Some d1) = Ok (Some text1) →
  iso (Some d2) = Ok (Some text2) →
  text1 = text2 ↔ instant d1 / US_PER_SECOND = instant d2 / US_PER_SECOND.
Proof.
  unfold iso, astimezone_utc. fold (instant d1). fold (instant d2).
  destruct (in_range (instant d1)) eqn:Hr1; simpl; [|done].
  destruct (in_range (instant d2)) eqn:Hr2; simpl; [|done].
  intros [= <-] [= <-]. split.
  - intros Heq. apply (f_equal read_iso_seconds) in Heq.
    rewrite !strftime_iso_reads in Heq by done. by injection Heq.
  - intros Heq.
    rewrite (strftime_iso_whole_seconds (instant d1)),
      (strftime_iso_whole_seconds (instant d2)). by rewrite Heq.
Qed.

Lemma iso_same_text_iff_same_second_witness :
  iso (Some (datetime_of 2024 3 1 10 0 CET)) = Ok (Some "2024-03-01T09:00:00Z") ∧
  iso (Some (mk_datetime (wall_us (datetime_of 2024 3 1 11 0 CET) + 999999)
                         (2 * US_PER_HOUR)))
    = Ok (Some "2024-03-01T09:00:00Z") ∧
  ("2024-03-01T09:00:00Z" = "2024-03-01T09:00:00Z" ↔
   instant (datetime_of 2024 3 1 10 0 CET) / US_PER_SECOND
   = instant (mk_datetime (wall_us (datetime_of 2024 3 1 11 0 CET) + 999999)
                          (2 * US_PER_HOUR)) / US_PER_SECOND).
Proof.
  assert (H1 : iso (Some (datetime_of 2024 3 1 10 0 CET))
               = Ok (Some "2024-03-01T09:00:00Z")) by reflexivity.
  assert (H2 : iso (Some (mk_datetime (wall_us (datetime_of 2024 3 1 11 0 CET) + 999999)
                                      (2 * US_PER_HOUR)))
               = Ok (Some "2024-03-01T09:00:00Z")) by reflexivity.
  split; [exact H1|]. split; [exact H2|].
  exact (iso_same_text_iff_same_second _ _ _ _ H1 H2).
Defined.

(** ** More on next_valid *)

(** X27: [next_valid], for any margin. What it returns is never earlier
    than the instant asked for nor than [now] plus the margin; it is the
    instant asked for, or else [now] plus the margin with the offset of
    [now]; and passing the result through [next_valid] again changes
    nothing. *)
Theorem next_valid_never_earlier (dt now r : datetime) (margin : Z) :
  next_valid dt now margin = Ok r →
  instant dt ≤ instant r ∧
  instant now + margin ≤ instant r ∧
  (r = dt ∨ (instant dt < instant now + margin ∧ r = shift now margin)) ∧
  next_valid r now margin = Ok r.
Proof.
  unfold next_valid.
  destruct (dt_add now margin) as [limit| |] eqn:Hadd; simpl; [|done..].
  apply dt_add_Ok in Hadd as [-> Hrange].
  unfold dt_ge. rewrite instant_shift.
  destruct (instant now + margin <=? instant dt) eqn:Hge.
  - intros [= <-]. apply Z.leb_le in Hge as Hle. rewrite Hge.
    repeat split; try done; try lia. by left.
  - intros [= <-].
    apply Z.leb_gt in Hge. rewrite instant_shift, Z.leb_refl.
    repeat split; try lia. by right.
Qed.

Lemma next_valid_never_earlier_witness :
  next_valid (datetime_of 2024 2 1 10 0 CET) scenario_now (20 * US_PER_MINUTE)
    = Ok (shift scenario_now (20 * US_PER_MINUTE)) ∧
  instant (datetime_of 2024 2 1 10 0 CET)
    ≤ instant (shift scenario_now (20 * US_PER_MINUTE)).
Proof.
  assert (H : next_valid (datetime_of 2024 2 1 10 0 CET) scenario_now (20 * US_PER_MINUTE)
              = Ok (shift scenario_now (20 * US_PER_MINUTE))) by reflexivity.
  split; [exact H|]. exact (proj1 (next_valid_never_earlier _ _ _ _ H)).
Defined.
